(** * relay_controller.py: RelayController and CapRelay

    A shallow embedding of [src/relay_controller.py].  Python objects are
    records, methods are computations in a state-and-exception monad whose
    state is the receiver ([self]); an exception leaves the mutations made
    before it in place, as in Python.  The [print] calls write to stdout
    only and are left out.

    The gpiozero library is external: an [LEDBoard] is modelled as the list
    of its LEDs (pin number, lit level, and whether the device answers),
    together with the trace of output calls issued to it; its constructor
    allocates the pins and raises when there is none or when one is given
    twice. *)

From Stdlib Require Import ZArith Lia String Ascii List.
From stdpp Require Import base tactics option list.

Set Warnings "-register-all".
Local Open Scope string_scope.
Local Open Scope list_scope.
Local Open Scope Z_scope.

(** ** Python values and exceptions *)

(** [str.lower()] on ASCII strings. *)
Definition lower_char (c : ascii) : ascii :=
  let n := N_of_ascii c in
  if ((65 <=? n) && (n <=? 90))%N then ascii_of_N (n + 32) else c.

Fixpoint lower (s : string) : string :=
  match s with
  | EmptyString => EmptyString
  | String c r => String (lower_char c) (lower r)
  end.

(** The values the public methods hand back. *)
Inductive pyobject :=
| PyNone
| PyStr (s : string)
| PyList (l : list Z)
| PyDict (items : list (string * pyobject)).

(** The messages of the [ValueError]s raised in the file, with the values
    their f-strings interpolate. *)
Inductive message :=
| RelayNumberRange (hi : Z)
    (* "Relay number must be between 0 and {hi}" *)
| ConfigSizesDiffer
    (* "chg_config and dmp_config must use the same number of GPIO pins" *)
| PinsRequired (n : Z)
    (* "chg/dmp configs require {n} GPIO pins to be allocated" *)
| InvalidState (state_name : string)
    (* "Invalid state: {state_name}" *)
| InvalidRelayState (should_be_closed relay_num : Z).
    (* "Invalid relay state {should_be_closed} at position {relay_num}" *)

Inductive exn :=
| ValueError (msg : message)
| AttributeError (attr : string)
| TypeError (attr : string)
| RecursionError
| IndexError
| GPIOError (pin : Z)
| GPIOPinMissing
| GPIOPinInUse (pin : Z).

Inductive outcome (A : Type) :=
| Return (a : A)
| Raise (e : exn).
Arguments Return {A} a.
Arguments Raise {A} e.

(** ** The monad of methods *)

Definition M (S A : Type) : Type := S -> S * outcome A.

Definition ret {S A} (a : A) : M S A := fun self => (self, Return a).

Definition raise {S A} (e : exn) : M S A := fun self => (self, Raise e).

Definition bind {S A B} (m : M S A) (k : A -> M S B) : M S B :=
  fun self =>
    match m self with
    | (self', Return a) => k a self'
    | (self', Raise e) => (self', Raise e)
    end.

Definition gets {S A} (f : S -> A) : M S A := fun self => (self, Return (f self)).

Definition modify {S} (f : S -> S) : M S unit := fun self => (f self, Return tt).

(** Run a method of an attribute (or of the base class) on the part of
    [self] it owns. *)
Definition zoom {S T A} (get : S -> T) (set : T -> S -> S) (m : M T A) : M S A :=
  fun self =>
    let (t, r) := m (get self) in (set t self, r).

Declare Scope method_scope.
Delimit Scope method_scope with method.
Notation "x <- m ;; k" := (bind m (fun x => k))
  (at level 100, m at next level, right associativity) : method_scope.
Notation "m ;; k" := (bind m (fun _ => k))
  (at level 100, right associativity) : method_scope.
Local Open Scope method_scope.

(** [for x in xs: body(x)]; an exception in the body ends the loop. *)
Fixpoint for_ {S A} (xs : list A) (body : A -> M S unit) : M S unit :=
  match xs with
  | [] => ret tt
  | x :: rest => body x ;; for_ rest body
  end.

(** [[f(x) for x in xs]]. *)
Fixpoint comprehension {S A B} (xs : list A) (f : A -> M S B) : M S (list B) :=
  match xs with
  | [] => ret []
  | x :: rest => y <- f x ;; ys <- comprehension rest f ;; ret (y :: ys)
  end.

(** [enumerate(l)], counting from [start]. *)
Fixpoint enumerate_from {A} (start : Z) (l : list A) : list (Z * A) :=
  match l with
  | [] => []
  | x :: rest => (start, x) :: enumerate_from (start + 1) rest
  end.

Definition enumerate {A} (l : list A) : list (Z * A) := enumerate_from 0 l.

(** [range(n)]. *)
Definition range (n : Z) : list Z := seqZ 0 n.

(** [len(l)]. *)
Definition len {A} (l : list A) : Z := Z.of_nat (length l).

(** ** gpiozero *)

Module gpiozero.

Record LED := { pin : Z; is_lit : bool; answers : bool }.

(** Output calls, in the order they were issued. *)
Inductive call :=
| on_ (pin : Z)
| off_ (pin : Z).

Record LEDBoard := { leds : list LED; calls : list call }.

(** The first pin of [pins] that is in [seen] or was met earlier in
    [pins]: the pin whose allocation finds it in use. *)
Fixpoint first_repeat (seen pins : list Z) : option Z :=
  match pins with
  | [] => None
  | p :: rest =>
      if existsb (Z.eqb p) seen then Some p else first_repeat (p :: seen) rest
  end.

(** The board once its pins are allocated: one LED per pin, unlit.
    [hw p] tells whether the device on pin [p] answers; one that does not
    raises on every access and keeps its level. *)
Definition wired (hw : Z -> bool) (pins : list Z) : LEDBoard :=
  {| leds := (fun p => {| pin := p; is_lit := false; answers := hw p |}) <$> pins;
     calls := [] |}.

(** [LEDBoard] on the pins.  The pins are allocated in the order given:
    a pin given a second time raises GPIOPinInUse, and a board without
    any pin raises GPIOPinMissing. *)
Definition new (hw : Z -> bool) (pins : list Z) : outcome LEDBoard :=
  match pins with
  | [] => Raise GPIOPinMissing
  | _ :: _ =>
      match first_repeat [] pins with
      | Some p => Raise (GPIOPinInUse p)
      | None => Return (wired hw pins)
      end
  end.

Definition set_lit (v : bool) (d : LED) : LED :=
  {| pin := pin d; is_lit := v; answers := answers d |}.

Definition issued (c : call) (b : LEDBoard) : LEDBoard :=
  {| leds := leds b; calls := calls b ++ [c] |}.

Definition driven (k : nat) (d : LED) (b : LEDBoard) : LEDBoard :=
  {| leds := <[k := d]> (leds b); calls := calls b |}.

(** [board[i]] with Python's indexing: a negative [i] counts from the
    end, anything outside raises IndexError.  The result is the position
    of the LED. *)
Definition getitem (i : Z) : M LEDBoard nat :=
  n <- gets (fun b => len (leds b)) ;;
  if (0 <=? i) && (i <? n) then ret (Z.to_nat i)
  else if (i <? 0) && (0 <=? n + i) then ret (Z.to_nat (n + i))
  else raise IndexError.

(** [led.on()] and [led.off()] for the LED at position [k]: both write a
    level, [true] for on.  The call is issued, then the level changes if
    the device answers. *)
Definition write (v : bool) (k : nat) : M LEDBoard unit :=
  o <- gets (fun b => leds b !! k) ;;
  match o with
  | None => raise IndexError
  | Some d =>
      modify (issued ((if v then on_ else off_) (pin d))) ;;
      if answers d then modify (driven k (set_lit v d))
      else raise (GPIOError (pin d))
  end.

Definition on (k : nat) : M LEDBoard unit := write true k.

Definition off (k : nat) : M LEDBoard unit := write false k.

(** [led.is_lit] for the LED at position [k]. *)
Definition read (k : nat) : M LEDBoard bool :=
  o <- gets (fun b => leds b !! k) ;;
  match o with
  | None => raise IndexError
  | Some d => if answers d then ret (is_lit d) else raise (GPIOError (pin d))
  end.

(** [for led in board], as the positions of the LEDs. *)
Definition iter (b : LEDBoard) : list nat := seq 0 (length (leds b)).

End gpiozero.

(** ** class RelayController *)

Module RelayController.

Record obj := {
  relay_pins : list Z;
  num_relays : Z;
  _board : gpiozero.LEDBoard
}.

Definition with_board (b : gpiozero.LEDBoard) (self : obj) : obj :=
  {| relay_pins := relay_pins self; num_relays := num_relays self; _board := b |}.

(** A call on [self._board]. *)
Definition board {A} (m : M gpiozero.LEDBoard A) : M obj A :=
  zoom _board with_board m.

Definition _validate_relay_number (relay_num : Z) : M obj unit :=
  num <- gets num_relays ;;
  if negb ((0 <=? relay_num) && (relay_num <? num))
  then raise (ValueError (RelayNumberRange (num - 1)))
  else ret tt.

Definition close (relay_num : Z) : M obj unit :=
  _validate_relay_number relay_num ;;
  k <- board (gpiozero.getitem relay_num) ;;
  board (gpiozero.off k).

Definition open (relay_num : Z) : M obj unit :=
  _validate_relay_number relay_num ;;
  k <- board (gpiozero.getitem relay_num) ;;
  board (gpiozero.on k).

Definition close_all : M obj unit :=
  relays <- gets (fun self => gpiozero.iter (_board self)) ;;
  for_ relays (fun relay => board (gpiozero.off relay)).

Definition open_all : M obj unit :=
  relays <- gets (fun self => gpiozero.iter (_board self)) ;;
  for_ relays (fun relay => board (gpiozero.on relay)).

Definition get_state (relay_num : Z) : M obj bool :=
  _validate_relay_number relay_num ;;
  k <- board (gpiozero.getitem relay_num) ;;
  lit <- board (gpiozero.read k) ;;
  ret (negb lit).

(** The constructor; the object exists only when the body returns. *)
Definition __init__ (hw : Z -> bool) (relay_pins : list Z) : outcome obj :=
  match gpiozero.new hw relay_pins with
  | Raise e => Raise e
  | Return board =>
      let self := {| relay_pins := relay_pins;
                     num_relays := len relay_pins;
                     _board := board |} in
      match open_all self with
      | (self', Return _) => Return self'
      | (_, Raise e) => Raise e
      end
  end.

End RelayController.

(** ** class CapRelay(RelayController) *)

Module CapRelay.

Record obj := {
  super : RelayController.obj;
  chg_config : list Z;
  dmp_config : list Z;
  current_state : string;
  null_state : list Z
}.

Definition with_super (b : RelayController.obj) (self : obj) : obj :=
  {| super := b; chg_config := chg_config self; dmp_config := dmp_config self;
     current_state := current_state self; null_state := null_state self |}.

Definition with_current_state (s : string) (self : obj) : obj :=
  {| super := super self; chg_config := chg_config self;
     dmp_config := dmp_config self; current_state := s;
     null_state := null_state self |}.

(** A method inherited from RelayController. *)
Definition inherited {A} (m : M RelayController.obj A) : M obj A :=
  zoom super with_super m.

Definition close (relay_num : Z) : M obj unit :=
  inherited (RelayController.close relay_num).
Definition open (relay_num : Z) : M obj unit :=
  inherited (RelayController.open relay_num).
Definition close_all : M obj unit := inherited RelayController.close_all.
Definition open_all : M obj unit := inherited RelayController.open_all.
Definition get_state (relay_num : Z) : M obj bool :=
  inherited (RelayController.get_state relay_num).

Definition relay_pins (self : obj) : list Z :=
  RelayController.relay_pins (super self).
Definition num_relays (self : obj) : Z :=
  RelayController.num_relays (super self).
Definition _board (self : obj) : gpiozero.LEDBoard :=
  RelayController._board (super self).

(** The if/elif chain at the head of [set_state]. *)
Definition select_config (state_name : string) : M obj (list Z) :=
  if String.eqb (lower state_name) "charge" then gets chg_config
  else if String.eqb (lower state_name) "dump" then gets dmp_config
  else if String.eqb (lower state_name) "null" then gets null_state
  else raise (ValueError (InvalidState state_name)).

(** The body of the loop of [set_state]. *)
Definition apply_entry (entry : Z * Z) : M obj unit :=
  let '(relay_num, should_be_closed) := entry in
  if should_be_closed =? 1 then close relay_num
  else if should_be_closed =? 0 then open relay_num
  else raise (ValueError (InvalidRelayState should_be_closed relay_num)).

Definition set_state (state_name : string) : M obj pyobject :=
  config <- select_config state_name ;;
  for_ (enumerate config) apply_entry ;;
  modify (with_current_state (lower state_name)) ;;
  ret PyNone.

(** The names an instance resolves: the attributes assigned by the two
    constructors, then the methods of CapRelay and of RelayController. *)
Definition attributes : list string :=
  [ "relay_pins"; "num_relays"; "_board";
    "chg_config"; "dmp_config"; "current_state"; "null_state";
    "__init__"; "set_state"; "get_state_info";
    "close"; "open"; "close_all"; "open_all"; "get_state";
    "_validate_relay_number" ].

(** [self.<name>()] from inside [get_state_info]: the two methods that
    take no argument run; [get_state_info] itself would recurse without
    end; any other name an instance resolves is not callable without
    arguments; a name it does not resolve raises AttributeError. *)
Definition call0 (name : string) : M obj pyobject :=
  if String.eqb name "close_all" then (close_all ;; ret PyNone)
  else if String.eqb name "open_all" then (open_all ;; ret PyNone)
  else if String.eqb name "get_state_info" then raise RecursionError
  else if existsb (String.eqb name) attributes then raise (TypeError name)
  else raise (AttributeError name).

Definition get_state_info : M obj pyobject :=
  current <- gets current_state ;;
  configuration <- call0 "get_state_config" ;;
  num <- gets num_relays ;;
  relay_states <- comprehension (range num)
                    (fun i => b <- get_state i ;; ret (if b : bool then 1 else 0)) ;;
  pins <- gets relay_pins ;;
  ret (PyDict [ ("current_state", PyStr current);
                ("configuration", configuration);
                ("relay_states", PyList relay_states);
                ("pins", PyList pins) ]).

Definition __init__ (hw : Z -> bool)
    (relay_pins chg_config dmp_config : list Z) : outcome obj :=
  match RelayController.__init__ hw relay_pins with
  | Raise e => Raise e
  | Return base =>
      if negb (len chg_config =? len dmp_config)
      then Raise (ValueError ConfigSizesDiffer)
      else if negb (len relay_pins =? len chg_config)
      then Raise (ValueError (PinsRequired (len chg_config)))
      else
        let self := {| super := base;
                       chg_config := chg_config;
                       dmp_config := dmp_config;
                       current_state := "null";
                       null_state := replicate (length relay_pins) 0 |} in
        match set_state "null" self with
        | (self', Return _) => Return self'
        | (_, Raise e) => Raise e
        end
  end.

End CapRelay.

(** ** test.py *)

Definition test_relay : outcome CapRelay.obj :=
  CapRelay.__init__ (fun _ => true) [22; 23; 24; 25] [1; 1; 0; 0] [0; 0; 1; 1].

(** * Notions used in the statements *)

(** [close] and [open] are the same method up to the level written. *)
Definition switch (v : bool) (relay_num : Z) : M RelayController.obj unit :=
  RelayController._validate_relay_number relay_num ;;
  k <- RelayController.board (gpiozero.getitem relay_num) ;;
  RelayController.board (gpiozero.write v k).

Definition in_range (self : RelayController.obj) (i : Z) : Prop :=
  0 <= i < RelayController.num_relays self.

Definition leds_of (self : RelayController.obj) : list gpiozero.LED :=
  gpiozero.leds (RelayController._board self).

Definition calls_of (self : RelayController.obj) : list gpiozero.call :=
  gpiozero.calls (RelayController._board self).

(** The state after a write of level [v] to LED [d] at position [k] took
    effect. *)
Definition written (v : bool) (k : nat) (d : gpiozero.LED)
    (self : RelayController.obj) : RelayController.obj :=
  RelayController.with_board
    (gpiozero.driven k (gpiozero.set_lit v d)
       (gpiozero.issued ((if v then gpiozero.on_ else gpiozero.off_) (gpiozero.pin d))
          (RelayController._board self)))
    self.

Definition cap_leds (self : CapRelay.obj) : list gpiozero.LED :=
  leds_of (CapRelay.super self).

Definition cap_calls (self : CapRelay.obj) : list gpiozero.call :=
  calls_of (CapRelay.super self).

(** The level a configuration entry asks for: 1 closes the relay, which
    turns the LED off. *)
Definition level_for (should_be_closed : Z) : bool := negb (should_be_closed =? 1).

(** What the methods of the class never assign. *)
Record same_setup (self self' : CapRelay.obj) : Prop := {
  same_chg : CapRelay.chg_config self' = CapRelay.chg_config self;
  same_dmp : CapRelay.dmp_config self' = CapRelay.dmp_config self;
  same_null : CapRelay.null_state self' = CapRelay.null_state self;
  same_num : CapRelay.num_relays self' = CapRelay.num_relays self;
  same_pins : CapRelay.relay_pins self' = CapRelay.relay_pins self;
  same_size : length (cap_leds self') = length (cap_leds self)
}.

(** Every LED of the board answers. *)
Definition all_answer (self : CapRelay.obj) : Prop :=
  Forall (fun d => gpiozero.answers d = true) (cap_leds self).

(** [num_relays] is the number of LEDs of the board. *)
Definition board_matches (self : CapRelay.obj) : Prop :=
  CapRelay.num_relays self = len (cap_leds self).

(** [set_state(state_name)] maps to the vector [V]. *)
Definition maps_to (self : CapRelay.obj) (state_name : string) (V : list Z) : Prop :=
  CapRelay.select_config state_name self = (self, Return V).

(** The loop of [close_all] ([v = false]) and of [open_all] ([v = true])
    over the positions [s, s+1, ..., s+n-1]. *)
Definition sweep (v : bool) (s n : nat) : M RelayController.obj unit :=
  for_ (seq s n) (fun relay => RelayController.board (gpiozero.write v relay)).

(** The object as [CapRelay.__init__] has it when it calls
    [set_state("null")]. *)
Definition before_null (base : RelayController.obj) (chg dmp : list Z) : CapRelay.obj :=
  {| CapRelay.super := base;
     CapRelay.chg_config := chg;
     CapRelay.dmp_config := dmp;
     CapRelay.current_state := "null";
     CapRelay.null_state := replicate (length (RelayController.relay_pins base)) 0 |}.

Definition blank : CapRelay.obj :=
  before_null {| RelayController.relay_pins := [];
                 RelayController.num_relays := 0;
                 RelayController._board :=
                   {| gpiozero.leds := []; gpiozero.calls := [] |} |} [] [].

Definition constructed (o : outcome CapRelay.obj) : CapRelay.obj :=
  match o with
  | Return self => self
  | Raise _ => blank
  end.

(** [relay = CapRelay([22, 23, 24, 25], [1, 1, 0, 0], [0, 0, 1, 1])]. *)
Definition relay : CapRelay.obj := Eval vm_compute in constructed test_relay.

(** The same relay once the device on pin 24 (position 2) stopped
    answering. *)
Definition relay_pin24_lost : CapRelay.obj := Eval vm_compute in
  CapRelay.with_super
    (RelayController.with_board
       {| gpiozero.leds :=
            <[2%nat := {| gpiozero.pin := 24; gpiozero.is_lit := true;
                          gpiozero.answers := false |}]> (cap_leds relay);
          gpiozero.calls := cap_calls relay |}
       (CapRelay.super relay))
    relay.

(** The shape of the dict [get_state_info] builds. *)
Definition StateSnapshot (current_state : string)
    (configuration relay_states pins : list Z) : pyobject :=
  PyDict [ ("current_state", PyStr current_state);
           ("configuration", PyList configuration);
           ("relay_states", PyList relay_states);
           ("pins", PyList pins) ].

(** The public methods, as calls on an object. *)
Inductive method_call :=
| call_close (relay_num : Z)
| call_open (relay_num : Z)
| call_close_all
| call_open_all
| call_get_state (relay_num : Z)
| call_set_state (state_name : string)
| call_get_state_info.

(** The object after a call, whether it returned or raised. *)
Definition after (c : method_call) (self : CapRelay.obj) : CapRelay.obj :=
  match c with
  | call_close i => fst (CapRelay.close i self)
  | call_open i => fst (CapRelay.open i self)
  | call_close_all => fst (CapRelay.close_all self)
  | call_open_all => fst (CapRelay.open_all self)
  | call_get_state i => fst (CapRelay.get_state i self)
  | call_set_state state_name => fst (CapRelay.set_state state_name self)
  | call_get_state_info => fst (CapRelay.get_state_info self)
  end.

Definition run (calls : list method_call) (self : CapRelay.obj) : CapRelay.obj :=
  fold_left (fun self c => after c self) calls self.

(** The object invariant: the board and the three vectors have
    [num_relays] entries. *)
Definition well_formed (self : CapRelay.obj) : Prop :=
  board_matches self /\
  len (CapRelay.chg_config self) = CapRelay.num_relays self /\
  len (CapRelay.dmp_config self) = CapRelay.num_relays self /\
  len (CapRelay.null_state self) = CapRelay.num_relays self.

(** The output call that writes level [v] to the pin [p]. *)
Definition call_for (v : bool) (p : Z) : gpiozero.call :=
  (if v then gpiozero.on_ else gpiozero.off_) p.

(** The calls a board receives when the vector [V] is applied to its LEDs,
    in the order of the positions. *)
Definition calls_for (leds : list gpiozero.LED) (V : list Z) : list gpiozero.call :=
  zip_with (fun d v => call_for (level_for v) (gpiozero.pin d)) leds V.

(** The names [set_state] accepts, after lowercasing. *)
Definition defined_state (s : string) : Prop :=
  s = "charge" \/ s = "dump" \/ s = "null".

(** test.py from its first line to its last, on hardware [hw]; the
    [sleep] calls only wait. *)
Definition test_py (hw : Z -> bool) : outcome CapRelay.obj :=
  match CapRelay.__init__ hw [22; 23; 24; 25] [1; 1; 0; 0] [0; 0; 1; 1] with
  | Raise e => Raise e
  | Return relay =>
      match (CapRelay.set_state "charge" ;;
             CapRelay.set_state "dump" ;;
             CapRelay.set_state "null" ;;
             CapRelay.close_all) relay with
      | (relay', Return _) => Return relay'
      | (_, Raise e) => Raise e
      end
  end.

(** [open_all] for the level [true], [close_all] for [false]. *)
Definition bulk (v : bool) : M RelayController.obj unit :=
  if v then RelayController.open_all else RelayController.close_all.

(** The LED of pin [p] after [open_all]: lit, and it answered. *)
Definition new_led (p : Z) : gpiozero.LED :=
  {| gpiozero.pin := p; gpiozero.is_lit := true; gpiozero.answers := true |}.

(** The LEDs of a board after the vector [V] was applied to them. *)
Definition applied (V : list Z) (leds : list gpiozero.LED) : list gpiozero.LED :=
  zip_with (fun d v => gpiozero.set_lit (level_for v) d) leds V ++ drop (length V) leds.

(** The object [CapRelay(pins, chg, dmp)] evaluates to, when it does. *)
Definition fresh (pins chg dmp : list Z) : CapRelay.obj :=
  {| CapRelay.super :=
       {| RelayController.relay_pins := pins;
          RelayController.num_relays := len pins;
          RelayController._board :=
            {| gpiozero.leds := new_led <$> pins;
               gpiozero.calls := (gpiozero.on_ <$> pins) ++ (gpiozero.on_ <$> pins) |} |};
     CapRelay.chg_config := chg;
     CapRelay.dmp_config := dmp;
     CapRelay.current_state := "null";
     CapRelay.null_state := replicate (length pins) 0 |}.

(** An entry of a configuration vector the loop of [set_state] accepts. *)
Definition valid_entry (v : Z) : Prop := v = 0 \/ v = 1.

(** What no method writes in an LED: its pin and whether it answers. *)
Definition wiring (leds : list gpiozero.LED) : list (Z * bool) :=
  (fun d => (gpiozero.pin d, gpiozero.answers d)) <$> leds.

(** The LEDs of a board on [pins] that answers, with the levels the
    vector [V] asks for. *)
Definition leds_for (pins V : list Z) : list gpiozero.LED :=
  zip_with (fun p v => {| gpiozero.pin := p; gpiozero.is_lit := level_for v;
                          gpiozero.answers := true |}) pins V.

(** * Properties *)

(** ** The monad and the loops *)

Lemma bind_Return {S A B} (m : M S A) (k : A -> M S B) self self' a :
  m self = (self', Return a) -> bind m k self = k a self'.
Proof. unfold bind. intros ->. reflexivity. Qed.

Lemma bind_Raise {S A B} (m : M S A) (k : A -> M S B) self self' e :
  m self = (self', Raise e) -> bind m k self = (self', Raise e).
Proof. unfold bind. intros ->. reflexivity. Qed.

Lemma zoom_run {S T A} (get : S -> T) (set : T -> S -> S) (m : M T A) self t r :
  m (get self) = (t, r) -> zoom get set m self = (set t self, r).
Proof. unfold zoom. intros ->. reflexivity. Qed.

Lemma for_app {S A} (xs ys : list A) (body : A -> M S unit) self :
  for_ (xs ++ ys) body self =
  match for_ xs body self with
  | (self', Return _) => for_ ys body self'
  | (self', Raise e) => (self', Raise e)
  end.
Proof.
  revert self. induction xs as [|x xs IH]; intros self; simpl.
  - reflexivity.
  - unfold bind. destruct (body x self) as [mid [[]|e]]; [apply IH | reflexivity].
Qed.

Lemma for_cons {S A} (x : A) (rest : list A) (body : A -> M S unit) self :
  for_ (x :: rest) body self =
  match body x self with
  | (self', Return _) => for_ rest body self'
  | (self', Raise e) => (self', Raise e)
  end.
Proof. reflexivity. Qed.

Lemma enumerate_from_app {A} (l1 l2 : list A) start :
  enumerate_from start (l1 ++ l2) =
  enumerate_from start l1 ++ enumerate_from (start + len l1) l2.
Proof.
  revert start. induction l1 as [|x l1 IH]; intros start; simpl.
  - unfold len. simpl. f_equal. lia.
  - rewrite IH. do 3 f_equal. unfold len. simpl length. lia.
Qed.

Lemma enumerate_split {A} (l : list A) (k : nat) v :
  l !! k = Some v ->
  enumerate l =
  enumerate (take k l) ++ (Z.of_nat k, v) :: enumerate_from (Z.of_nat k + 1) (drop (S k) l).
Proof.
  intros Hk. unfold enumerate.
  rewrite <- (take_drop_middle l k v Hk) at 1.
  rewrite enumerate_from_app. simpl. unfold len.
  rewrite length_take_le by (apply lookup_lt_Some in Hk; lia).
  reflexivity.
Qed.

(** ** str.lower *)

Lemma lower_idempotent s : lower (lower s) = lower s.
Proof.
  induction s as [|c s IH]; simpl; [reflexivity|]. rewrite IH. f_equal.
  destruct c as [[] [] [] [] [] [] [] []]; reflexivity.
Qed.

(** ** gpiozero and RelayController: one relay *)

Lemma close_switch relay_num : RelayController.close relay_num = switch false relay_num.
Proof. reflexivity. Qed.

Lemma open_switch relay_num : RelayController.open relay_num = switch true relay_num.
Proof. reflexivity. Qed.

Lemma with_board_same self :
  RelayController.with_board (RelayController._board self) self = self.
Proof. destruct self; reflexivity. Qed.

Lemma validate_in self i :
  in_range self i ->
  RelayController._validate_relay_number i self = (self, Return tt).
Proof.
  unfold in_range, RelayController._validate_relay_number, bind, gets. intros H.
  replace ((0 <=? i) && (i <? RelayController.num_relays self)) with true
    by (symmetry; apply andb_true_intro; split; lia).
  reflexivity.
Qed.

Lemma validate_out self i :
  ~ in_range self i ->
  RelayController._validate_relay_number i self =
  (self, Raise (ValueError (RelayNumberRange (RelayController.num_relays self - 1)))).
Proof.
  unfold in_range, RelayController._validate_relay_number, bind, gets. intros H.
  destruct ((0 <=? i) && (i <? RelayController.num_relays self)) eqn:E; [|reflexivity].
  apply andb_prop in E. lia.
Qed.

Lemma validate_inv self i self' r :
  RelayController._validate_relay_number i self = (self', r) ->
  self' = self /\
  (in_range self i /\ r = Return tt \/
   ~ in_range self i /\
   r = Raise (ValueError (RelayNumberRange (RelayController.num_relays self - 1)))).
Proof.
  destruct (decide (in_range self i)) as [H|H].
  - rewrite (validate_in _ _ H). intros [= <- <-]. auto.
  - rewrite (validate_out _ _ H). intros [= <- <-]. auto.
Qed.

Lemma getitem_in b i d :
  0 <= i -> gpiozero.leds b !! Z.to_nat i = Some d ->
  gpiozero.getitem i b = (b, Return (Z.to_nat i)).
Proof.
  intros H0 Hd. apply lookup_lt_Some in Hd.
  unfold gpiozero.getitem, bind, gets, len.
  replace ((0 <=? i) && (i <? Z.of_nat (length (gpiozero.leds b)))) with true
    by (symmetry; apply andb_true_intro; split; lia).
  reflexivity.
Qed.

Lemma getitem_beyond b i :
  0 <= i -> gpiozero.leds b !! Z.to_nat i = None ->
  gpiozero.getitem i b = (b, Raise IndexError).
Proof.
  intros H0 Hd. apply lookup_ge_None in Hd.
  unfold gpiozero.getitem, bind, gets, len.
  replace (i <? Z.of_nat (length (gpiozero.leds b))) with false by (symmetry; lia).
  replace (i <? 0) with false by (symmetry; lia).
  rewrite andb_false_r. reflexivity.
Qed.

Lemma write_run v k b :
  gpiozero.write v k b =
  match gpiozero.leds b !! k with
  | None => (b, Raise IndexError)
  | Some d =>
      let b' := gpiozero.issued ((if v then gpiozero.on_ else gpiozero.off_) (gpiozero.pin d)) b in
      if gpiozero.answers d
      then (gpiozero.driven k (gpiozero.set_lit v d) b', Return tt)
      else (b', Raise (GPIOError (gpiozero.pin d)))
  end.
Proof.
  unfold gpiozero.write, bind, gets, modify, raise.
  destruct (gpiozero.leds b !! k) as [d|]; [|reflexivity].
  destruct (gpiozero.answers d); reflexivity.
Qed.

Lemma switch_ok v self i d :
  in_range self i -> leds_of self !! Z.to_nat i = Some d -> gpiozero.answers d = true ->
  switch v i self = (written v (Z.to_nat i) d self, Return tt).
Proof.
  intros Hi Hd Ha. unfold switch.
  rewrite (bind_Return _ _ _ _ _ (validate_in _ _ Hi)).
  erewrite bind_Return
    by (apply zoom_run, getitem_in with (d := d); [apply Hi | exact Hd]).
  rewrite with_board_same. unfold RelayController.board, zoom.
  rewrite write_run. unfold leds_of in Hd. rewrite Hd. simpl. rewrite Ha.
  reflexivity.
Qed.

Lemma switch_mute v self i d :
  in_range self i -> leds_of self !! Z.to_nat i = Some d -> gpiozero.answers d = false ->
  switch v i self =
  (RelayController.with_board
     (gpiozero.issued ((if v then gpiozero.on_ else gpiozero.off_) (gpiozero.pin d))
        (RelayController._board self)) self,
   Raise (GPIOError (gpiozero.pin d))).
Proof.
  intros Hi Hd Ha. unfold switch.
  rewrite (bind_Return _ _ _ _ _ (validate_in _ _ Hi)).
  erewrite bind_Return
    by (apply zoom_run, getitem_in with (d := d); [apply Hi | exact Hd]).
  rewrite with_board_same. unfold RelayController.board, zoom.
  rewrite write_run. unfold leds_of in Hd. rewrite Hd. simpl. rewrite Ha.
  reflexivity.
Qed.

Lemma switch_beyond v self i :
  in_range self i -> leds_of self !! Z.to_nat i = None ->
  switch v i self = (self, Raise IndexError).
Proof.
  intros Hi Hd. unfold switch.
  rewrite (bind_Return _ _ _ _ _ (validate_in _ _ Hi)).
  erewrite bind_Raise
    by (apply zoom_run, getitem_beyond; [apply Hi | exact Hd]).
  rewrite with_board_same. reflexivity.
Qed.

Lemma switch_out v self i :
  ~ in_range self i ->
  switch v i self =
  (self, Raise (ValueError (RelayNumberRange (RelayController.num_relays self - 1)))).
Proof.
  intros Hi. unfold switch. apply bind_Raise, validate_out, Hi.
Qed.

(** What a write that returned has done, and to which LED. *)
Lemma switch_Return_inv v self i self' u :
  switch v i self = (self', Return u) ->
  in_range self i /\
  exists d, leds_of self !! Z.to_nat i = Some d /\ gpiozero.answers d = true /\
            self' = written v (Z.to_nat i) d self.
Proof.
  intros H. destruct (decide (in_range self i)) as [Hi|Hi].
  - destruct (leds_of self !! Z.to_nat i) as [d|] eqn:Hd.
    + destruct (gpiozero.answers d) eqn:Ha.
      * rewrite (switch_ok _ _ _ _ Hi Hd Ha) in H. injection H as <-. eauto.
      * rewrite (switch_mute _ _ _ _ Hi Hd Ha) in H. discriminate.
    + rewrite (switch_beyond _ _ _ Hi Hd) in H. discriminate.
  - rewrite (switch_out _ _ _ Hi) in H. discriminate.
Qed.

(** A write that raised changed no level; at most the call was issued. *)
Lemma switch_Raise_inv v self i self' e :
  switch v i self = (self', Raise e) ->
  leds_of self' = leds_of self /\
  RelayController.num_relays self' = RelayController.num_relays self /\
  RelayController.relay_pins self' = RelayController.relay_pins self.
Proof.
  intros H. destruct (decide (in_range self i)) as [Hi|Hi].
  - destruct (leds_of self !! Z.to_nat i) as [d|] eqn:Hd.
    + destruct (gpiozero.answers d) eqn:Ha.
      * rewrite (switch_ok _ _ _ _ Hi Hd Ha) in H. discriminate.
      * rewrite (switch_mute _ _ _ _ Hi Hd Ha) in H. injection H as <- _. auto.
    + rewrite (switch_beyond _ _ _ Hi Hd) in H. injection H as <- _. auto.
  - rewrite (switch_out _ _ _ Hi) in H. injection H as <- _. auto.
Qed.

Lemma written_leds v k d self :
  leds_of (written v k d self) = <[k := gpiozero.set_lit v d]> (leds_of self).
Proof. reflexivity. Qed.

Lemma written_num_relays v k d self :
  RelayController.num_relays (written v k d self) = RelayController.num_relays self.
Proof. reflexivity. Qed.

Lemma get_state_ok self i d :
  in_range self i -> leds_of self !! Z.to_nat i = Some d -> gpiozero.answers d = true ->
  RelayController.get_state i self = (self, Return (negb (gpiozero.is_lit d))).
Proof.
  intros Hi Hd Ha. unfold RelayController.get_state.
  rewrite (bind_Return _ _ _ _ _ (validate_in _ _ Hi)).
  erewrite bind_Return
    by (apply zoom_run, getitem_in with (d := d); [apply Hi | exact Hd]).
  rewrite with_board_same.
  unfold RelayController.board, zoom, gpiozero.read, bind, gets, ret, raise.
  unfold leds_of in Hd. rewrite Hd, Ha. rewrite with_board_same. reflexivity.
Qed.

Lemma get_state_out self i :
  ~ in_range self i ->
  RelayController.get_state i self =
  (self, Raise (ValueError (RelayNumberRange (RelayController.num_relays self - 1)))).
Proof.
  intros Hi. unfold RelayController.get_state. apply bind_Raise, validate_out, Hi.
Qed.

(** ** CapRelay: the inherited methods *)

Lemma same_setup_refl self : same_setup self self.
Proof. split; reflexivity. Qed.

Lemma same_setup_trans a b c : same_setup a b -> same_setup b c -> same_setup a c.
Proof. intros [] []. split; congruence. Qed.

Lemma with_super_same self : CapRelay.with_super (CapRelay.super self) self = self.
Proof. destruct self; reflexivity. Qed.

Lemma cap_switch_close i : CapRelay.close i = CapRelay.inherited (switch false i).
Proof. reflexivity. Qed.

Lemma cap_switch_open i : CapRelay.open i = CapRelay.inherited (switch true i).
Proof. reflexivity. Qed.

Lemma inherited_run {A} (m : M RelayController.obj A) self base r :
  m (CapRelay.super self) = (base, r) ->
  CapRelay.inherited m self = (CapRelay.with_super base self, r).
Proof. apply zoom_run. Qed.

Lemma inherited_inv {A} (m : M RelayController.obj A) self self' r :
  CapRelay.inherited m self = (self', r) ->
  exists base, m (CapRelay.super self) = (base, r) /\
               self' = CapRelay.with_super base self.
Proof.
  unfold CapRelay.inherited, zoom. destruct (m (CapRelay.super self)) as [base r'].
  intros [= <- <-]. eauto.
Qed.

Lemma cap_get_state_ok self i d :
  in_range (CapRelay.super self) i -> cap_leds self !! Z.to_nat i = Some d ->
  gpiozero.answers d = true ->
  CapRelay.get_state i self = (self, Return (negb (gpiozero.is_lit d))).
Proof.
  intros Hi Hd Ha. unfold CapRelay.get_state.
  rewrite (inherited_run _ _ _ _ (get_state_ok _ _ _ Hi Hd Ha)).
  rewrite with_super_same. reflexivity.
Qed.

(** ** The loop of set_state *)

Lemma apply_entry_run i v :
  CapRelay.apply_entry (i, v) =
  if v =? 1 then CapRelay.inherited (switch false i)
  else if v =? 0 then CapRelay.inherited (switch true i)
  else raise (ValueError (InvalidRelayState v i)).
Proof. reflexivity. Qed.

Lemma apply_entry_level i v :
  v = 0 \/ v = 1 ->
  CapRelay.apply_entry (i, v) = CapRelay.inherited (switch (level_for v) i).
Proof. intros [-> | ->]; reflexivity. Qed.

Lemma apply_entry_invalid i v self :
  v <> 0 -> v <> 1 ->
  CapRelay.apply_entry (i, v) self = (self, Raise (ValueError (InvalidRelayState v i))).
Proof.
  intros H0 H1. rewrite apply_entry_run.
  destruct (Z.eqb_spec v 1); [contradiction|].
  destruct (Z.eqb_spec v 0); [contradiction|]. reflexivity.
Qed.

Lemma apply_entry_ok i v self d :
  v = 0 \/ v = 1 -> in_range (CapRelay.super self) i ->
  cap_leds self !! Z.to_nat i = Some d -> gpiozero.answers d = true ->
  CapRelay.apply_entry (i, v) self =
  (CapRelay.with_super (written (level_for v) (Z.to_nat i) d (CapRelay.super self)) self,
   Return tt).
Proof.
  intros Hv Hi Hd Ha. rewrite (apply_entry_level _ _ Hv).
  apply inherited_run, switch_ok; assumption.
Qed.

Lemma apply_entry_Return_inv i v self self' u :
  CapRelay.apply_entry (i, v) self = (self', Return u) ->
  (v = 0 \/ v = 1) /\ in_range (CapRelay.super self) i /\
  exists d, cap_leds self !! Z.to_nat i = Some d /\ gpiozero.answers d = true /\
    self' = CapRelay.with_super
              (written (level_for v) (Z.to_nat i) d (CapRelay.super self)) self.
Proof.
  intros H.
  assert (Hv : v = 0 \/ v = 1).
  { destruct (decide (v = 0)); [auto|]. destruct (decide (v = 1)); [auto|].
    rewrite apply_entry_invalid in H by assumption. discriminate. }
  split; [exact Hv|]. rewrite (apply_entry_level _ _ Hv) in H.
  apply inherited_inv in H as (base & H & ->).
  apply switch_Return_inv in H as (Hi & d & Hd & Ha & ->). eauto 6.
Qed.

(** An entry that raised changed no level and no attribute. *)
Lemma apply_entry_Raise_inv i v self self' e :
  CapRelay.apply_entry (i, v) self = (self', Raise e) ->
  cap_leds self' = cap_leds self /\ same_setup self self' /\
  CapRelay.current_state self' = CapRelay.current_state self.
Proof.
  intros H. destruct (decide (v = 0 \/ v = 1)) as [Hv|Hv].
  - rewrite (apply_entry_level _ _ Hv) in H.
    apply inherited_inv in H as (base & H & ->).
    apply switch_Raise_inv in H as (Hl & Hn & Hp).
    split; [exact Hl|]. split; [|reflexivity].
    split; try reflexivity; try assumption.
    unfold cap_leds. simpl. rewrite Hl. reflexivity.
  - rewrite apply_entry_invalid in H by lia. injection H as <- _.
    auto using same_setup_refl.
Qed.

Lemma written_keeps_setup v k d self :
  same_setup self (CapRelay.with_super (written v k d (CapRelay.super self)) self).
Proof.
  split; try reflexivity.
  unfold cap_leds. simpl. rewrite written_leds. apply length_insert.
Qed.

Lemma written_current_state v k d self :
  CapRelay.current_state (CapRelay.with_super (written v k d (CapRelay.super self)) self)
  = CapRelay.current_state self.
Proof. reflexivity. Qed.

Lemma written_cap_leds v k d self :
  cap_leds (CapRelay.with_super (written v k d (CapRelay.super self)) self)
  = <[k := gpiozero.set_lit v d]> (cap_leds self).
Proof. reflexivity. Qed.

(** A loop that ran to its end wrote every entry of [config] to the LED
    of its position, in turn, and nothing else. *)
Lemma apply_loop_Return_inv config : forall (s : nat) self self' u,
  for_ (enumerate_from (Z.of_nat s) config) CapRelay.apply_entry self = (self', Return u) ->
  same_setup self self' /\
  CapRelay.current_state self' = CapRelay.current_state self /\
  (forall (j : nat) v, config !! j = Some v ->
     (v = 0 \/ v = 1) /\ in_range (CapRelay.super self) (Z.of_nat (s + j)) /\
     exists d, cap_leds self !! (s + j)%nat = Some d /\ gpiozero.answers d = true /\
               cap_leds self' !! (s + j)%nat = Some (gpiozero.set_lit (level_for v) d)) /\
  (forall k : nat, (k < s \/ s + length config <= k)%nat ->
     cap_leds self' !! k = cap_leds self !! k).
Proof.
  induction config as [|v config IH]; intros s self self' u H;
    cbn [enumerate_from] in H.
  - injection H as <-. split; [apply same_setup_refl|]. split; [reflexivity|].
    split; [intros j v Hj; discriminate | reflexivity].
  - rewrite for_cons in H.
    destruct (CapRelay.apply_entry (Z.of_nat s, v) self) as [mid [[]|e]] eqn:E;
      [|discriminate].
    apply apply_entry_Return_inv in E as (Hv & Hi & d & Hd & Ha & ->).
    rewrite Nat2Z.id in Hd, H.
    replace (Z.of_nat s + 1) with (Z.of_nat (S s)) in H by lia.
    apply IH in H as (Hsetup & Hcur & Hin & Hout).
    rewrite written_cap_leds in Hin, Hout.
    split; [eapply same_setup_trans; [apply written_keeps_setup | exact Hsetup]|].
    split; [exact Hcur|]. split.
    + intros [|j] w Hj; simpl in Hj.
      * injection Hj as <-. rewrite Nat.add_0_r. split; [exact Hv|].
        split; [exact Hi|].
        exists d. split; [exact Hd|]. split; [exact Ha|].
        rewrite Hout by lia. apply list_lookup_insert_eq.
        apply lookup_lt_Some in Hd. exact Hd.
      * destruct (Hin j w Hj) as (Hw & Hr & d' & Hd' & Ha' & Hl').
        replace (s + S j)%nat with (S s + j)%nat by lia.
        split; [exact Hw|]. split; [exact Hr|]. exists d'.
        rewrite list_lookup_insert_ne in Hd' by lia. auto.
    + intros k Hk. simpl in Hk. rewrite Hout by lia.
      apply list_lookup_insert_ne. lia.
Qed.

Lemma written_all_answer v k d self :
  all_answer self -> gpiozero.answers d = true ->
  all_answer (CapRelay.with_super (written v k d (CapRelay.super self)) self).
Proof.
  unfold all_answer. rewrite written_cap_leds. intros Hall Ha.
  apply Forall_insert; assumption.
Qed.

Lemma written_board_matches v k d self :
  board_matches self ->
  board_matches (CapRelay.with_super (written v k d (CapRelay.super self)) self).
Proof.
  unfold board_matches, len. rewrite written_cap_leds, length_insert. auto.
Qed.

(** On a board that answers, a loop over entries in {0,1} that fit the
    board runs to its end. *)
Lemma apply_loop_ok config : forall (s : nat) self,
  Forall (fun v => v = 0 \/ v = 1) config ->
  (s + length config <= length (cap_leds self))%nat ->
  board_matches self -> all_answer self ->
  exists self',
    for_ (enumerate_from (Z.of_nat s) config) CapRelay.apply_entry self = (self', Return tt)
    /\ board_matches self' /\ all_answer self'.
Proof.
  induction config as [|v config IH]; intros s self Hcfg Hlen Hm Hall;
    cbn [enumerate_from for_].
  - exists self. auto.
  - inversion Hcfg as [|? ? Hv Hrest]; subst. simpl in Hlen.
    destruct (lookup_lt_is_Some_2 (cap_leds self) s ltac:(lia)) as [d Hd].
    assert (Ha : gpiozero.answers d = true).
    { unfold all_answer in Hall. rewrite Forall_lookup in Hall. eapply Hall, Hd. }
    assert (Hi : in_range (CapRelay.super self) (Z.of_nat s)).
    { unfold in_range. unfold board_matches, CapRelay.num_relays, len in Hm.
      rewrite Hm. lia. }
    rewrite (bind_Return _ _ _ _ _
               (apply_entry_ok _ _ _ _ Hv Hi ltac:(rewrite Nat2Z.id; exact Hd) Ha)).
    rewrite Nat2Z.id.
    replace (Z.of_nat s + 1) with (Z.of_nat (S s)) by lia.
    apply IH.
    + exact Hrest.
    + rewrite written_cap_leds, length_insert. lia.
    + apply written_board_matches, Hm.
    + apply written_all_answer; assumption.
Qed.

(** ** set_state *)

Lemma select_config_defined state_name self :
  lower state_name = "charge" \/ lower state_name = "dump" \/ lower state_name = "null" ->
  exists V, maps_to self state_name V.
Proof.
  unfold maps_to, CapRelay.select_config.
  intros [-> | [-> | ->]]; simpl; eexists; reflexivity.
Qed.

Lemma select_config_undefined state_name self :
  lower state_name <> "charge" -> lower state_name <> "dump" ->
  lower state_name <> "null" ->
  CapRelay.select_config state_name self =
  (self, Raise (ValueError (InvalidState state_name))).
Proof.
  intros Hc Hd Hn. unfold CapRelay.select_config.
  apply String.eqb_neq in Hc, Hd, Hn. rewrite Hc, Hd, Hn. reflexivity.
Qed.

Lemma set_state_run state_name self V :
  maps_to self state_name V ->
  CapRelay.set_state state_name self =
  match for_ (enumerate V) CapRelay.apply_entry self with
  | (self', Return _) =>
      (CapRelay.with_current_state (lower state_name) self', Return PyNone)
  | (self', Raise e) => (self', Raise e)
  end.
Proof.
  intros HV. unfold CapRelay.set_state.
  rewrite (bind_Return _ _ _ _ _ HV). unfold bind.
  destruct (for_ (enumerate V) CapRelay.apply_entry self) as [mid [[]|e]]; reflexivity.
Qed.

Lemma with_current_state_leds s self :
  cap_leds (CapRelay.with_current_state s self) = cap_leds self.
Proof. reflexivity. Qed.

Lemma level_for_read d v :
  negb (gpiozero.is_lit (gpiozero.set_lit (level_for v) d)) = (v =? 1).
Proof. unfold level_for. simpl. apply negb_involutive. Qed.

(** C1.  After a [set_state(name)] that maps to a vector [V] of length N
    with entries in {0,1} and that completes without error,
    [get_state(i)] is [V[i] == 1] for every i in [0,N). *)
Theorem set_state_then_get_state self state_name V self' r :
  maps_to self state_name V ->
  len V = CapRelay.num_relays self ->
  Forall (fun v => v = 0 \/ v = 1) V ->
  CapRelay.set_state state_name self = (self', Return r) ->
  forall i, 0 <= i < CapRelay.num_relays self ->
    CapRelay.get_state i self' = (self', Return (nth (Z.to_nat i) V 0 =? 1)).
Proof.
  intros HV Hlen _ Hset i Hi.
  rewrite (set_state_run _ _ _ HV) in Hset.
  destruct (for_ (enumerate V) CapRelay.apply_entry self) as [mid [[]|e]] eqn:Hloop;
    [|discriminate].
  injection Hset as <- _.
  apply (apply_loop_Return_inv V 0) in Hloop as (Hsetup & _ & Hin & _).
  unfold len in Hlen.
  destruct (lookup_lt_is_Some_2 V (Z.to_nat i) ltac:(lia)) as [v Hv].
  destruct (Hin _ _ Hv) as (_ & _ & d & _ & Ha & Hd). simpl in Hd.
  rewrite (nth_lookup_Some _ _ _ _ Hv).
  rewrite <- (level_for_read d v).
  apply cap_get_state_ok.
  - unfold in_range. change (0 <= i < CapRelay.num_relays mid).
    rewrite (same_num _ _ Hsetup). exact Hi.
  - rewrite with_current_state_leds. exact Hd.
  - exact Ha.
Qed.

(** C4, as the code has it.  For every defined state name, when all the
    per-relay operations of [set_state(name)] succeed, [set_state] sets
    [current_state] to the lowercased name and returns [None]. *)
Theorem set_state_success self state_name V mid u :
  maps_to self state_name V ->
  for_ (enumerate V) CapRelay.apply_entry self = (mid, Return u) ->
  CapRelay.set_state state_name self =
    (CapRelay.with_current_state (lower state_name) mid, Return PyNone) /\
  CapRelay.current_state (CapRelay.with_current_state (lower state_name) mid)
    = lower state_name.
Proof.
  intros HV Hloop. rewrite (set_state_run _ _ _ HV), Hloop. split; reflexivity.
Qed.

(** C5.  When the operation at index [k] of [set_state(name)] raises,
    after those below [k] succeeded, [set_state] raises the same error,
    [current_state] keeps its value, the relays below [k] read back the
    new values and the LEDs at [k] and above keep their level. *)
Theorem set_state_failure self state_name V (k : nat) v mid u mid' e :
  maps_to self state_name V ->
  V !! k = Some v ->
  for_ (enumerate (take k V)) CapRelay.apply_entry self = (mid, Return u) ->
  CapRelay.apply_entry (Z.of_nat k, v) mid = (mid', Raise e) ->
  CapRelay.set_state state_name self = (mid', Raise e) /\
  CapRelay.current_state mid' = CapRelay.current_state self /\
  (forall (i : nat) w, (i < k)%nat -> V !! i = Some w ->
     CapRelay.get_state (Z.of_nat i) mid' = (mid', Return (w =? 1))) /\
  (forall i : nat, (k <= i)%nat -> cap_leds mid' !! i = cap_leds self !! i).
Proof.
  intros HV Hk Hpre Hfail.
  assert (Hlt : (k < length V)%nat) by (eapply lookup_lt_Some, Hk).
  split.
  { rewrite (set_state_run _ _ _ HV), (enumerate_split _ _ _ Hk), for_app, Hpre.
    rewrite for_cons, Hfail. reflexivity. }
  apply apply_entry_Raise_inv in Hfail as (Hleds & Hsetup' & Hcur').
  apply (apply_loop_Return_inv (take k V) 0) in Hpre as (Hsetup & Hcur & Hin & Hout).
  split; [congruence|]. split.
  - intros i w Hi Hw.
    assert (Hw' : take k V !! i = Some w) by (rewrite lookup_take_lt; assumption).
    destruct (Hin _ _ Hw') as (_ & Hr & d & _ & Ha & Hd). simpl in Hr, Hd.
    rewrite <- (level_for_read d w).
    apply cap_get_state_ok.
    + unfold in_range in *. change (0 <= Z.of_nat i < CapRelay.num_relays mid').
      rewrite (same_num _ _ Hsetup'), (same_num _ _ Hsetup). exact Hr.
    + rewrite Nat2Z.id, Hleds. exact Hd.
    + exact Ha.
  - intros i Hi. rewrite Hleds. apply Hout. right.
    rewrite length_take. simpl. lia.
Qed.

(** C7.  A name that matches none of "charge", "dump", "null" after
    lowercasing makes [set_state] raise ValueError("Invalid state: ...");
    the object, its [current_state] and its board are as before. *)
Theorem set_state_unknown self state_name :
  lower state_name <> "charge" -> lower state_name <> "dump" ->
  lower state_name <> "null" ->
  CapRelay.set_state state_name self =
  (self, Raise (ValueError (InvalidState state_name))).
Proof.
  intros Hc Hd Hn. unfold CapRelay.set_state.
  apply bind_Raise, select_config_undefined; assumption.
Qed.

(** C8.  For an index outside [0,N), [close], [open] and [get_state]
    raise the range error at the validation, the first statement of each:
    the object comes back as it was, with no call issued to the board. *)
Theorem out_of_range (self : RelayController.obj) i :
  ~ (0 <= i < RelayController.num_relays self) ->
  let err := ValueError (RelayNumberRange (RelayController.num_relays self - 1)) in
  RelayController.close i self = (self, Raise err) /\
  RelayController.open i self = (self, Raise err) /\
  RelayController.get_state i self = (self, Raise err).
Proof.
  intros Hi err. rewrite close_switch, open_switch.
  split; [|split].
  - apply switch_out, Hi.
  - apply switch_out, Hi.
  - apply get_state_out, Hi.
Qed.

(** ** get_state_info *)

(** C2.  [get_state_info] evaluates [self.get_state_config()] for its
    second entry; no such attribute exists on a CapRelay, so the call
    raises AttributeError on every object and no dict is returned. *)
Theorem get_state_info_raises (self : CapRelay.obj) :
  CapRelay.get_state_info self = (self, Raise (AttributeError "get_state_config")).
Proof. reflexivity. Qed.

(** ** One relay: levels *)

(** C10.  For an in-range index whose LED answers, [close] writes the
    unlit level with an [off] call, [open] writes the lit level with an
    [on] call, and [get_state] is true exactly when the LED is not lit. *)
Theorem relay_levels_inverted (self : RelayController.obj) i d :
  0 <= i < RelayController.num_relays self ->
  leds_of self !! Z.to_nat i = Some d ->
  gpiozero.answers d = true ->
  (exists self',
     RelayController.close i self = (self', Return tt) /\
     leds_of self' !! Z.to_nat i = Some (gpiozero.set_lit false d) /\
     calls_of self' = calls_of self ++ [gpiozero.off_ (gpiozero.pin d)] /\
     RelayController.get_state i self' = (self', Return true)) /\
  (exists self',
     RelayController.open i self = (self', Return tt) /\
     leds_of self' !! Z.to_nat i = Some (gpiozero.set_lit true d) /\
     calls_of self' = calls_of self ++ [gpiozero.on_ (gpiozero.pin d)] /\
     RelayController.get_state i self' = (self', Return false)) /\
  RelayController.get_state i self = (self, Return (negb (gpiozero.is_lit d))).
Proof.
  intros Hi Hd Ha.
  assert (Hlt : (Z.to_nat i < length (leds_of self))%nat)
    by (eapply lookup_lt_Some, Hd).
  assert (Hw : forall v,
    leds_of (written v (Z.to_nat i) d self) !! Z.to_nat i = Some (gpiozero.set_lit v d)).
  { intros v. rewrite written_leds. apply list_lookup_insert_eq, Hlt. }
  split; [|split].
  - exists (written false (Z.to_nat i) d self).
    rewrite close_switch, (switch_ok _ _ _ _ Hi Hd Ha).
    split; [reflexivity|]. split; [apply Hw|]. split; [reflexivity|].
    apply (get_state_ok (written false (Z.to_nat i) d self) i _ Hi (Hw false) Ha).
  - exists (written true (Z.to_nat i) d self).
    rewrite open_switch, (switch_ok _ _ _ _ Hi Hd Ha).
    split; [reflexivity|]. split; [apply Hw|]. split; [reflexivity|].
    apply (get_state_ok (written true (Z.to_nat i) d self) i _ Hi (Hw true) Ha).
  - apply get_state_ok; assumption.
Qed.

(** ** close_all and open_all *)

Lemma close_all_sweep self :
  RelayController.close_all self = sweep false 0 (length (leds_of self)) self.
Proof. reflexivity. Qed.

Lemma open_all_sweep self :
  RelayController.open_all self = sweep true 0 (length (leds_of self)) self.
Proof. reflexivity. Qed.

Lemma board_write_run v k self :
  RelayController.board (gpiozero.write v k) self =
  match leds_of self !! k with
  | None => (self, Raise IndexError)
  | Some d =>
      if gpiozero.answers d then (written v k d self, Return tt)
      else (RelayController.with_board
              (gpiozero.issued ((if v then gpiozero.on_ else gpiozero.off_) (gpiozero.pin d))
                 (RelayController._board self)) self,
            Raise (GPIOError (gpiozero.pin d)))
  end.
Proof.
  unfold RelayController.board, zoom, leds_of. rewrite write_run.
  destruct (gpiozero.leds (RelayController._board self) !! k) as [d|].
  - simpl. destruct (gpiozero.answers d); reflexivity.
  - rewrite with_board_same. reflexivity.
Qed.

(** A sweep that ran to its end wrote [v] to every LED it visited. *)
Lemma sweep_Return_inv v n : forall s self self' u,
  sweep v s n self = (self', Return u) ->
  RelayController.num_relays self' = RelayController.num_relays self /\
  RelayController.relay_pins self' = RelayController.relay_pins self /\
  length (leds_of self') = length (leds_of self) /\
  (forall k, (s <= k < s + n)%nat ->
     exists d, leds_of self !! k = Some d /\ gpiozero.answers d = true /\
               leds_of self' !! k = Some (gpiozero.set_lit v d)) /\
  (forall k, (k < s \/ s + n <= k)%nat -> leds_of self' !! k = leds_of self !! k).
Proof.
  unfold sweep. induction n as [|n IH]; intros s self self' u H; cbn [seq] in H.
  - injection H as <-. repeat split; try reflexivity. intros k Hk. lia.
  - rewrite for_cons, board_write_run in H.
    destruct (leds_of self !! s) as [d|] eqn:Hd; [|discriminate].
    destruct (gpiozero.answers d) eqn:Ha; [|discriminate].
    apply IH in H as (Hn & Hp & Hl & Hin & Hout).
    rewrite written_leds in Hin, Hout, Hl. rewrite length_insert in Hl.
    split; [exact Hn|]. split; [exact Hp|]. split; [exact Hl|]. split.
    + intros k Hk. destruct (decide (k = s)) as [->|Hne].
      * exists d. split; [exact Hd|]. split; [exact Ha|].
        rewrite Hout by lia. apply list_lookup_insert_eq.
        eapply lookup_lt_Some, Hd.
      * destruct (Hin k ltac:(lia)) as (d' & Hd' & Ha' & Hl').
        rewrite list_lookup_insert_ne in Hd' by lia. eauto.
    + intros k Hk. rewrite Hout by lia. apply list_lookup_insert_ne. lia.
Qed.

(** On LEDs that answer, a sweep within the board runs to its end. *)
Lemma sweep_ok v n : forall s self,
  Forall (fun d => gpiozero.answers d = true) (leds_of self) ->
  (s + n <= length (leds_of self))%nat ->
  exists self', sweep v s n self = (self', Return tt) /\
    Forall (fun d => gpiozero.answers d = true) (leds_of self').
Proof.
  unfold sweep. induction n as [|n IH]; intros s self Hall Hlen; cbn [seq].
  - exists self. split; [reflexivity | exact Hall].
  - rewrite for_cons, board_write_run.
    destruct (lookup_lt_is_Some_2 (leds_of self) s ltac:(lia)) as [d Hd].
    rewrite Hd.
    assert (Ha : gpiozero.answers d = true).
    { rewrite Forall_lookup in Hall. eapply Hall, Hd. }
    rewrite Ha. apply IH.
    + rewrite written_leds. apply Forall_insert; assumption.
    + rewrite written_leds, length_insert. lia.
Qed.

(** C9.  [close_all] never assigns [current_state], whatever its outcome;
    when it returns on an object whose [num_relays] is the size of its
    board, every relay reads closed; and it returns when every LED
    answers. *)
Theorem close_all_keeps_current_state (self : CapRelay.obj) :
  (forall self' r, CapRelay.close_all self = (self', r) ->
     CapRelay.current_state self' = CapRelay.current_state self) /\
  (board_matches self ->
   forall self' u, CapRelay.close_all self = (self', Return u) ->
     forall i, 0 <= i < CapRelay.num_relays self ->
       CapRelay.get_state i self' = (self', Return true)) /\
  (all_answer self -> exists self', CapRelay.close_all self = (self', Return tt)).
Proof.
  split; [|split].
  - intros self' r H. apply inherited_inv in H as (base & _ & ->). reflexivity.
  - intros Hm self' u H i Hi.
    apply inherited_inv in H as (base & H & ->).
    rewrite close_all_sweep in H.
    apply sweep_Return_inv in H as (Hn & _ & _ & Hin & _).
    unfold board_matches, CapRelay.num_relays, cap_leds, len in Hm.
    unfold CapRelay.num_relays in Hi.
    destruct (Hin (Z.to_nat i) ltac:(lia)) as (d & _ & Ha & Hd).
    change true with (negb (gpiozero.is_lit (gpiozero.set_lit false d))).
    apply cap_get_state_ok.
    + unfold in_range. simpl. rewrite Hn. exact Hi.
    + exact Hd.
    + exact Ha.
  - intros Hall. unfold CapRelay.close_all.
    destruct (sweep_ok false (length (leds_of (CapRelay.super self))) 0
                (CapRelay.super self) Hall ltac:(lia)) as (base & H & _).
    rewrite <- close_all_sweep in H.
    rewrite (inherited_run _ _ _ _ H). eauto.
Qed.

(** ** The constructors *)

Lemma first_repeat_None pins : forall seen,
  gpiozero.first_repeat seen pins = None <->
  NoDup pins /\ forall p, p ∈ pins -> p ∉ seen.
Proof.
  induction pins as [|p pins IH]; intros seen; cbn [gpiozero.first_repeat].
  - split; [|reflexivity]. intros _. split; [apply NoDup_nil_2|].
    intros p Hp. apply elem_of_nil in Hp. contradiction.
  - destruct (existsb (Z.eqb p) seen) eqn:E.
    + split; [discriminate|]. intros [_ H]. exfalso.
      apply existsb_exists in E as (q & Hq & Hpq). apply Z.eqb_eq in Hpq as <-.
      apply (H p); [apply elem_of_cons; auto | apply list_elem_of_In, Hq].
    + rewrite IH, NoDup_cons. split.
      * intros [Hnd H]. split; [split; [|exact Hnd]|].
        -- intros Hp. apply (H p Hp). apply elem_of_cons. auto.
        -- intros q Hq Hs. apply elem_of_cons in Hq as [->|Hq].
           ++ assert (existsb (Z.eqb p) seen = true); [|congruence].
              apply existsb_exists. exists p. split; [apply list_elem_of_In, Hs|].
              apply Z.eqb_refl.
           ++ apply (H q Hq). apply elem_of_cons. auto.
      * intros [[Hp Hnd] H]. split; [exact Hnd|].
        intros q Hq Hs. apply elem_of_cons in Hs as [->|Hs]; [contradiction|].
        apply (H q); [apply elem_of_cons; auto | exact Hs].
Qed.

Lemma new_ok hw pins :
  pins <> [] -> NoDup pins -> gpiozero.new hw pins = Return (gpiozero.wired hw pins).
Proof.
  intros Hne Hnd. unfold gpiozero.new. destruct pins as [|p pins]; [contradiction|].
  rewrite (proj2 (first_repeat_None (p :: pins) [])); [reflexivity|].
  split; [exact Hnd|]. intros q _ Hq. apply elem_of_nil in Hq. contradiction.
Qed.

Lemma new_inv hw pins b :
  gpiozero.new hw pins = Return b ->
  pins <> [] /\ NoDup pins /\ b = gpiozero.wired hw pins.
Proof.
  unfold gpiozero.new. destruct pins as [|p pins]; [discriminate|].
  destruct (gpiozero.first_repeat [] (p :: pins)) as [q|] eqn:E; [discriminate|].
  intros [= <-]. apply first_repeat_None in E as [Hnd _]. auto.
Qed.

Lemma distinct_by_scan pins : gpiozero.first_repeat [] pins = None -> NoDup pins.
Proof. intros H. apply first_repeat_None in H as [H _]. exact H. Qed.

Lemma base_init_run hw pins :
  RelayController.__init__ hw pins =
  match gpiozero.new hw pins with
  | Raise e => Raise e
  | Return b =>
      match sweep true 0 (length (gpiozero.leds b))
              {| RelayController.relay_pins := pins;
                 RelayController.num_relays := len pins;
                 RelayController._board := b |} with
      | (self', Return _) => Return self'
      | (_, Raise e) => Raise e
      end
  end.
Proof. reflexivity. Qed.

Lemma base_init_pins hw pins base :
  RelayController.__init__ hw pins = Return base -> pins <> [] /\ NoDup pins.
Proof.
  rewrite base_init_run.
  destruct (gpiozero.new hw pins) as [b|e] eqn:Hnew; [|discriminate].
  apply new_inv in Hnew as (Hne & Hnd & _). auto.
Qed.

Lemma base_init_inv hw pins base :
  RelayController.__init__ hw pins = Return base ->
  RelayController.num_relays base = len pins /\
  RelayController.relay_pins base = pins /\
  length (leds_of base) = length pins.
Proof.
  rewrite base_init_run.
  destruct (gpiozero.new hw pins) as [b|e0] eqn:Hnew; [|discriminate].
  apply new_inv in Hnew as (_ & _ & ->).
  match goal with |- context [sweep ?v ?s ?n ?o] =>
    destruct (sweep v s n o) as [self' [u|e]] eqn:H end; [|discriminate].
  intros [= <-]. apply sweep_Return_inv in H as (Hn & Hp & Hl & _).
  split; [exact Hn|]. split; [exact Hp|].
  rewrite Hl. unfold leds_of. simpl. apply length_fmap.
Qed.

Lemma base_init_ok hw pins :
  pins <> [] -> NoDup pins ->
  (forall p, p ∈ pins -> hw p = true) ->
  exists base, RelayController.__init__ hw pins = Return base /\
    Forall (fun d => gpiozero.answers d = true) (leds_of base).
Proof.
  intros Hne Hnd Hhw. rewrite base_init_run, (new_ok hw pins Hne Hnd).
  match goal with |- context [sweep ?v ?s ?n ?o] =>
    destruct (sweep_ok v n s o) as (base & H & Hall) end.
  - unfold leds_of. simpl. apply Forall_fmap, Forall_forall. exact Hhw.
  - unfold leds_of. simpl. lia.
  - rewrite H. eauto.
Qed.

Lemma init_run hw pins chg dmp :
  CapRelay.__init__ hw pins chg dmp =
  match RelayController.__init__ hw pins with
  | Raise e => Raise e
  | Return base =>
      if negb (len chg =? len dmp) then Raise (ValueError ConfigSizesDiffer)
      else if negb (len pins =? len chg) then Raise (ValueError (PinsRequired (len chg)))
      else match CapRelay.set_state "null" (before_null base chg dmp) with
           | (self', Return _) => Return self'
           | (_, Raise e) => Raise e
           end
  end.
Proof.
  unfold CapRelay.__init__, before_null.
  destruct (RelayController.__init__ hw pins) as [base|e] eqn:Hb; [|reflexivity].
  apply base_init_inv in Hb as (_ & -> & _). reflexivity.
Qed.

Lemma null_maps_to self : maps_to self "null" (CapRelay.null_state self).
Proof. reflexivity. Qed.

(** What a constructed CapRelay looks like. *)
Lemma init_inv hw pins chg dmp self :
  CapRelay.__init__ hw pins chg dmp = Return self ->
  CapRelay.current_state self = "null" /\
  CapRelay.num_relays self = len pins /\
  CapRelay.relay_pins self = pins /\
  CapRelay.chg_config self = chg /\ CapRelay.dmp_config self = dmp /\
  len chg = len pins /\ len dmp = len pins /\
  board_matches self /\
  (forall k : nat, (k < length pins)%nat ->
     exists d, cap_leds self !! k = Some d /\ gpiozero.answers d = true /\
               gpiozero.is_lit d = true).
Proof.
  rewrite init_run.
  destruct (RelayController.__init__ hw pins) as [base|e] eqn:Hb; [|discriminate].
  apply base_init_inv in Hb as (Hn & Hp & Hl).
  destruct (Z.eqb_spec (len chg) (len dmp)) as [Hcd|]; [|discriminate].
  destruct (Z.eqb_spec (len pins) (len chg)) as [Hpc|]; [|discriminate].
  cbn [negb].
  rewrite (set_state_run _ _ _ (null_maps_to _)).
  destruct (for_ _ _ _) as [mid [[]|e]] eqn:Hloop; [|discriminate].
  intros [= <-].
  apply (apply_loop_Return_inv _ 0) in Hloop as (Hsetup & _ & Hin & _).
  destruct Hsetup as [Hchg Hdmp _ Hnum Hpins Hsize].
  split; [reflexivity|].
  split; [change (CapRelay.num_relays mid = len pins); rewrite Hnum; exact Hn|].
  split; [change (CapRelay.relay_pins mid = pins); rewrite Hpins; exact Hp|].
  split; [exact Hchg|]. split; [exact Hdmp|].
  split; [lia|]. split; [lia|]. split.
  - unfold board_matches. rewrite with_current_state_leds.
    change (CapRelay.num_relays mid = len (cap_leds mid)).
    unfold len. rewrite Hnum, Hsize. unfold cap_leds at 1. simpl.
    rewrite Hl. exact Hn.
  - intros k Hk.
    destruct (Hin k 0) as (_ & _ & d & _ & Ha & Hd).
    { simpl. apply lookup_replicate. rewrite Hp. auto. }
    exists (gpiozero.set_lit (level_for 0) d). auto.
Qed.

(** With lists of the same length and pins that can be allocated and
    answer, the constructor returns, whatever the entries of the two
    vectors. *)
Lemma init_ok hw pins chg dmp :
  pins <> [] -> NoDup pins ->
  len chg = len dmp -> len pins = len chg ->
  (forall p, p ∈ pins -> hw p = true) ->
  exists self, CapRelay.__init__ hw pins chg dmp = Return self /\ all_answer self.
Proof.
  intros Hne Hnd Hcd Hpc Hhw. rewrite init_run.
  destruct (base_init_ok hw pins Hne Hnd Hhw) as (base & Hb & Hall). rewrite Hb.
  apply base_init_inv in Hb as (Hn & Hp & Hl).
  rewrite (proj2 (Z.eqb_eq _ _) Hcd), (proj2 (Z.eqb_eq _ _) Hpc). cbn [negb].
  rewrite (set_state_run _ _ _ (null_maps_to _)).
  destruct (apply_loop_ok (CapRelay.null_state (before_null base chg dmp)) 0
              (before_null base chg dmp)) as (mid & Hloop & _ & Hall').
  - simpl. apply Forall_replicate. auto.
  - cbn [before_null CapRelay.null_state]. rewrite length_replicate, Hp.
    unfold cap_leds. cbn [before_null CapRelay.super]. lia.
  - unfold board_matches, CapRelay.num_relays, cap_leds, len.
    cbn [before_null CapRelay.super]. unfold len in Hn. lia.
  - exact Hall.
  - change (Z.of_nat 0) with 0 in Hloop. unfold enumerate. rewrite Hloop. eauto.
Qed.

(** C6, as the code has it.  For N >= 1 pins, pairwise distinct and
    answering, and vectors of length N, the constructor returns; and a
    constructed CapRelay has [current_state == "null"] and reads every
    relay open.  (With no pin the board cannot be built and the
    constructor raises.) *)
Theorem init_state_null hw pins chg dmp :
  (pins <> [] -> NoDup pins ->
   len chg = len pins -> len dmp = len pins ->
   (forall p, p ∈ pins -> hw p = true) ->
   exists self, CapRelay.__init__ hw pins chg dmp = Return self) /\
  (forall self, CapRelay.__init__ hw pins chg dmp = Return self ->
     CapRelay.current_state self = "null" /\
     CapRelay.num_relays self = len pins /\
     forall i, 0 <= i < CapRelay.num_relays self ->
       CapRelay.get_state i self = (self, Return false)).
Proof.
  split.
  - intros Hne Hnd Hc Hd Hhw.
    destruct (init_ok hw pins chg dmp) as (self & H & _);
      [exact Hne | exact Hnd | lia | lia | exact Hhw |].
    eauto.
  - intros self H.
    apply init_inv in H as (Hcur & Hn & _ & _ & _ & _ & _ & _ & Hleds).
    split; [exact Hcur|]. split; [exact Hn|]. intros i Hi.
    destruct (Hleds (Z.to_nat i)) as (d & Hd & Ha & Hlit).
    { unfold len in Hn. lia. }
    rewrite (cap_get_state_ok _ _ _ Hi Hd Ha), Hlit. reflexivity.
Qed.

(** C3, as the code has it.  The constructor checks the lengths only:
    with pins that can be allocated (at least one, none twice) and answer
    and vectors of length N it returns an object holding the vectors as
    given, whatever their entries.  An entry outside {0,1} is reported by
    [set_state] when it reaches it: ValueError("Invalid relay state v at
    position k"), [k] the first such position of the vector applied.  By
    then the entries before [k] have been applied: [current_state] is
    kept, the relays below [k] read the new values, the LEDs from [k] on
    keep their level. *)
Theorem entries_checked_by_set_state :
  (forall hw pins chg dmp,
     pins <> [] -> NoDup pins ->
     len chg = len dmp -> len pins = len chg ->
     (forall p, p ∈ pins -> hw p = true) ->
     exists self, CapRelay.__init__ hw pins chg dmp = Return self /\
       CapRelay.chg_config self = chg /\ CapRelay.dmp_config self = dmp /\
       board_matches self /\ all_answer self) /\
  (forall self state_name V (k : nat) v,
     board_matches self -> all_answer self ->
     maps_to self state_name V ->
     Z.of_nat k < CapRelay.num_relays self ->
     V !! k = Some v -> v <> 0 -> v <> 1 ->
     (forall (j : nat) w, (j < k)%nat -> V !! j = Some w -> w = 0 \/ w = 1) ->
     exists self',
       CapRelay.set_state state_name self =
         (self', Raise (ValueError (InvalidRelayState v (Z.of_nat k)))) /\
       CapRelay.current_state self' = CapRelay.current_state self /\
       (forall (j : nat) w, (j < k)%nat -> V !! j = Some w ->
          CapRelay.get_state (Z.of_nat j) self' = (self', Return (w =? 1))) /\
       (forall j : nat, (k <= j)%nat -> cap_leds self' !! j = cap_leds self !! j)).
Proof.
  split.
  - intros hw pins chg dmp Hne Hnd Hcd Hpc Hhw.
    destruct (init_ok hw pins chg dmp Hne Hnd Hcd Hpc Hhw) as (self & H & Hall).
    exists self. split; [exact H|].
    apply init_inv in H as (_ & _ & _ & Hchg & Hdmp & _ & _ & Hm & _). auto.
  - intros self state_name V k v Hm Hall HV Hk Hv H0 H1 Hbelow.
    assert (Hlt : (k < length V)%nat) by (eapply lookup_lt_Some, Hv).
    destruct (apply_loop_ok (take k V) 0 self) as (mid & Hloop & _ & _).
    + apply Forall_lookup. intros j w Hj.
      apply lookup_take_Some in Hj as [Hj Hjk]. eapply Hbelow; eassumption.
    + rewrite length_take. unfold board_matches, len in Hm. lia.
    + exact Hm.
    + exact Hall.
    + exists mid. change (Z.of_nat 0) with 0 in Hloop. split.
      { rewrite (set_state_run _ _ _ HV), (enumerate_split _ _ _ Hv), for_app.
        unfold enumerate. rewrite Hloop, for_cons.
        rewrite apply_entry_invalid by assumption. reflexivity. }
      apply (apply_loop_Return_inv (take k V) 0) in Hloop as (Hsetup & Hcur & Hin & Hout).
      split; [exact Hcur|]. split.
      * intros j w Hj Hw.
        assert (Hw' : take k V !! j = Some w) by (rewrite lookup_take_lt; assumption).
        destruct (Hin _ _ Hw') as (_ & Hr & d & _ & Ha & Hd). simpl in Hr, Hd.
        rewrite <- (level_for_read d w).
        apply cap_get_state_ok.
        -- unfold in_range in *. change (0 <= Z.of_nat j < CapRelay.num_relays mid).
           rewrite (same_num _ _ Hsetup). exact Hr.
        -- rewrite Nat2Z.id. exact Hd.
        -- exact Ha.
      * intros j Hj. apply Hout. right. rewrite length_take. simpl. lia.
Qed.

(** ** Every state of a CapRelay *)

Lemma switch_frame v i self self' r :
  switch v i self = (self', r) ->
  RelayController.num_relays self' = RelayController.num_relays self /\
  RelayController.relay_pins self' = RelayController.relay_pins self /\
  length (leds_of self') = length (leds_of self).
Proof.
  destruct r as [u|e]; intros H.
  - apply switch_Return_inv in H as (_ & d & _ & _ & ->).
    rewrite written_leds, length_insert. auto.
  - apply switch_Raise_inv in H as (-> & -> & ->). auto.
Qed.

Lemma sweep_frame v n : forall s self self' r,
  sweep v s n self = (self', r) ->
  RelayController.num_relays self' = RelayController.num_relays self /\
  RelayController.relay_pins self' = RelayController.relay_pins self /\
  length (leds_of self') = length (leds_of self).
Proof.
  unfold sweep. induction n as [|n IH]; intros s self self' r H; cbn [seq] in H.
  - injection H as <- _. auto.
  - rewrite for_cons, board_write_run in H.
    destruct (leds_of self !! s) as [d|]; [|injection H as <- _; auto].
    destruct (gpiozero.answers d); [|injection H as <- _; auto].
    apply IH in H as (-> & -> & ->). rewrite written_leds, length_insert. auto.
Qed.

Lemma get_state_frame i self self' r :
  RelayController.get_state i self = (self', r) -> self' = self.
Proof.
  destruct (decide (in_range self i)) as [Hi|Hi].
  - destruct (leds_of self !! Z.to_nat i) as [d|] eqn:Hd.
    + destruct (gpiozero.answers d) eqn:Ha.
      * rewrite (get_state_ok _ _ _ Hi Hd Ha). congruence.
      * unfold RelayController.get_state.
        rewrite (bind_Return _ _ _ _ _ (validate_in _ _ Hi)).
        erewrite bind_Return
          by (apply zoom_run, getitem_in with (d := d); [apply Hi | exact Hd]).
        rewrite with_board_same.
        unfold RelayController.board, zoom, gpiozero.read, bind, gets, ret, raise.
        unfold leds_of in Hd. rewrite Hd, Ha, with_board_same. congruence.
    + unfold RelayController.get_state.
      rewrite (bind_Return _ _ _ _ _ (validate_in _ _ Hi)).
      erewrite bind_Raise
        by (apply zoom_run, getitem_beyond; [apply Hi | exact Hd]).
      rewrite with_board_same. congruence.
  - rewrite (get_state_out _ _ Hi). congruence.
Qed.

Lemma apply_loop_frame config : forall start self self' r,
  for_ (enumerate_from start config) CapRelay.apply_entry self = (self', r) ->
  same_setup self self'.
Proof.
  induction config as [|v config IH]; intros start self self' r H;
    cbn [enumerate_from] in H.
  - injection H as <- _. apply same_setup_refl.
  - rewrite for_cons in H.
    destruct (CapRelay.apply_entry (start, v) self) as [mid [[]|e]] eqn:E.
    + apply apply_entry_Return_inv in E as (_ & _ & d & _ & _ & ->).
      eapply same_setup_trans; [apply written_keeps_setup | eapply IH, H].
    + injection H as <- _. apply apply_entry_Raise_inv in E as (_ & E & _). exact E.
Qed.

Lemma inherited_keeps_setup {A} (m : M RelayController.obj A) self self' r :
  (forall base, m (CapRelay.super self) = (base, r) ->
     RelayController.num_relays base = RelayController.num_relays (CapRelay.super self) /\
     RelayController.relay_pins base = RelayController.relay_pins (CapRelay.super self) /\
     length (leds_of base) = length (leds_of (CapRelay.super self))) ->
  CapRelay.inherited m self = (self', r) ->
  same_setup self self'.
Proof.
  intros Hm H. apply inherited_inv in H as (base & H & ->).
  destruct (Hm base H) as (Hn & Hp & Hl). split; try reflexivity; assumption.
Qed.

Lemma set_state_frame state_name self self' r :
  CapRelay.set_state state_name self = (self', r) -> same_setup self self'.
Proof.
  destruct (CapRelay.select_config state_name self) as [self0 [V|e]] eqn:HV.
  - assert (self0 = self) as ->.
    { unfold CapRelay.select_config in HV.
      repeat match type of HV with
             | context [if ?b then _ else _] => destruct b
             end; injection HV as -> _; reflexivity. }
    rewrite (set_state_run _ _ _ HV).
    destruct (for_ _ _ _) as [mid [[]|e']] eqn:Hloop; intros [= <- _].
    + apply apply_loop_frame in Hloop. destruct Hloop. split; assumption.
    + eapply apply_loop_frame, Hloop.
  - unfold CapRelay.set_state. rewrite (bind_Raise _ _ _ _ _ HV).
    intros [= <- _].
    unfold CapRelay.select_config in HV.
    repeat match type of HV with
           | context [if ?b then _ else _] => destruct b
           end; injection HV as -> _; apply same_setup_refl.
Qed.

Lemma after_keeps_setup c self : same_setup self (after c self).
Proof.
  destruct c as [i|i| | |i|state_name|]; unfold after.
  - destruct (CapRelay.close i self) as [self' r] eqn:H.
    eapply inherited_keeps_setup, H. intros base. apply switch_frame.
  - destruct (CapRelay.open i self) as [self' r] eqn:H.
    eapply inherited_keeps_setup, H. intros base. apply switch_frame.
  - destruct (CapRelay.close_all self) as [self' r] eqn:H.
    eapply inherited_keeps_setup, H. intros base.
    rewrite close_all_sweep. apply sweep_frame.
  - destruct (CapRelay.open_all self) as [self' r] eqn:H.
    eapply inherited_keeps_setup, H. intros base.
    rewrite open_all_sweep. apply sweep_frame.
  - destruct (CapRelay.get_state i self) as [self' r] eqn:H.
    eapply inherited_keeps_setup, H. intros base Hb.
    apply get_state_frame in Hb as ->. auto.
  - destruct (CapRelay.set_state state_name self) as [self' r] eqn:H.
    eapply set_state_frame, H.
  - apply same_setup_refl.
Qed.

Lemma same_setup_well_formed self self' :
  same_setup self self' -> well_formed self -> well_formed self'.
Proof.
  intros [Hc Hd Hz Hn Hp Hl] (Hm & Hchg & Hdmp & Hnull).
  unfold well_formed, board_matches, len in *.
  rewrite Hc, Hd, Hz, Hn, Hl. auto.
Qed.

Lemma init_well_formed hw pins chg dmp self :
  CapRelay.__init__ hw pins chg dmp = Return self -> well_formed self.
Proof.
  intros H. pose proof H as H'. rewrite init_run in H'.
  destruct (RelayController.__init__ hw pins) as [base|e] eqn:Hb; [|discriminate].
  apply base_init_inv in Hb as (_ & Hp & _).
  destruct (Z.eqb_spec (len chg) (len dmp)); [|discriminate].
  destruct (Z.eqb_spec (len pins) (len chg)); [|discriminate].
  cbn [negb] in H'.
  destruct (CapRelay.set_state "null" _) as [self' [u|e']] eqn:Hs; [|discriminate].
  injection H' as ->. apply set_state_frame in Hs as [_ _ Hz _ _ _].
  apply init_inv in H as (_ & Hn & _ & Hchg & Hdmp & Hc & Hd & Hm & _).
  unfold well_formed. rewrite Hchg, Hdmp, Hz, Hn.
  split; [exact Hm|]. split; [exact Hc|]. split; [exact Hd|].
  cbn [before_null CapRelay.null_state]. unfold len.
  rewrite length_replicate, Hp. reflexivity.
Qed.

(** Every state a constructed CapRelay goes through is well formed. *)
Lemma run_well_formed hw pins chg dmp self calls :
  CapRelay.__init__ hw pins chg dmp = Return self ->
  well_formed (run calls self).
Proof.
  intros H. apply init_well_formed in H. revert self H.
  induction calls as [|c calls IH]; intros self H; [exact H|].
  apply IH. eapply same_setup_well_formed, H. apply after_keeps_setup.
Qed.

(** ** The scenario of test.py, and two variations *)

Lemma relay_constructed : test_relay = Return relay.
Proof. reflexivity. Qed.

Lemma set_state_then_get_state_witness :
  exists self',
    CapRelay.set_state "Charge" relay = (self', Return PyNone) /\
    CapRelay.get_state 1 self' = (self', Return (nth 1 [1; 1; 0; 0] 0 =? 1)).
Proof.
  eexists. split; [vm_compute; reflexivity|].
  apply (set_state_then_get_state relay "Charge" [1; 1; 0; 0] _ PyNone).
  - reflexivity.
  - reflexivity.
  - repeat (apply Forall_cons_2; [lia|]). apply Forall_nil_2.
  - reflexivity.
  - change (0 <= 1 < 4). lia.
Defined.

Lemma set_state_success_witness :
  exists mid,
    CapRelay.set_state "DUMP" relay =
      (CapRelay.with_current_state (lower "DUMP") mid, Return PyNone) /\
    CapRelay.current_state (CapRelay.with_current_state (lower "DUMP") mid) = lower "DUMP".
Proof.
  eexists.
  eapply (set_state_success relay "DUMP" [0; 0; 1; 1] _ tt).
  - reflexivity.
  - vm_compute. reflexivity.
Defined.

(** C4 as stated fails: [set_state("charge")] on the relay of test.py
    succeeds and returns [None], not a snapshot. *)
Lemma set_state_returns_None :
  exists self' r,
    maps_to relay "charge" [1; 1; 0; 0] /\
    CapRelay.set_state "charge" relay = (self', Return r) /\
    CapRelay.current_state self' = "charge" /\
    ~ (exists name config states pins, r = StateSnapshot name config states pins).
Proof.
  eexists. exists PyNone. split; [reflexivity|].
  split; [vm_compute; reflexivity|]. split; [reflexivity|].
  intros (name & config & states & pins & H). discriminate H.
Qed.

Lemma set_state_failure_witness :
  exists mid',
    CapRelay.set_state "charge" relay_pin24_lost = (mid', Raise (GPIOError 24)) /\
    CapRelay.current_state mid' = CapRelay.current_state relay_pin24_lost /\
    (forall (i : nat) w, (i < 2)%nat -> [1; 1; 0; 0] !! i = Some w ->
       CapRelay.get_state (Z.of_nat i) mid' = (mid', Return (w =? 1))) /\
    (forall i : nat, (2 <= i)%nat ->
       cap_leds mid' !! i = cap_leds relay_pin24_lost !! i).
Proof.
  eexists.
  eapply (set_state_failure relay_pin24_lost "charge" [1; 1; 0; 0] 2 0 _ tt).
  - reflexivity.
  - reflexivity.
  - vm_compute. reflexivity.
  - vm_compute. reflexivity.
Defined.

Lemma set_state_unknown_witness :
  CapRelay.set_state "bogus" relay = (relay, Raise (ValueError (InvalidState "bogus"))).
Proof.
  apply (set_state_unknown relay "bogus"); intros H; vm_compute in H; discriminate H.
Defined.

Lemma out_of_range_witness :
  RelayController.close 4 (CapRelay.super relay)
    = (CapRelay.super relay, Raise (ValueError (RelayNumberRange 3))) /\
  RelayController.open (-1) (CapRelay.super relay)
    = (CapRelay.super relay, Raise (ValueError (RelayNumberRange 3))).
Proof.
  split.
  - apply (out_of_range (CapRelay.super relay) 4). change (~ 0 <= 4 < 4). lia.
  - apply (out_of_range (CapRelay.super relay) (-1)). change (~ 0 <= -1 < 4). lia.
Defined.

Lemma close_all_keeps_current_state_witness :
  exists self',
    CapRelay.close_all relay = (self', Return tt) /\
    CapRelay.current_state self' = "null" /\
    CapRelay.get_state 3 self' = (self', Return true).
Proof.
  destruct (close_all_keeps_current_state relay) as (Hcur & Hread & Hret).
  destruct Hret as [self' H].
  { repeat (apply Forall_cons_2; [reflexivity|]). apply Forall_nil_2. }
  exists self'. split; [exact H|]. split.
  - apply (Hcur self' (Return tt) H).
  - apply (Hread eq_refl self' tt H 3). change (0 <= 3 < 4). lia.
Defined.

Lemma relay_levels_inverted_witness :
  RelayController.get_state 2 (CapRelay.super relay)
  = (CapRelay.super relay, Return false).
Proof.
  apply (relay_levels_inverted (CapRelay.super relay) 2
           {| gpiozero.pin := 24; gpiozero.is_lit := true; gpiozero.answers := true |}).
  - change (0 <= 2 < 4). lia.
  - reflexivity.
  - reflexivity.
Defined.

(** C6 as stated fails at N = 0: without a pin the board cannot be
    built, and [CapRelay([], [], [])] raises instead of giving an object
    in the null state.  It fails as well when a pin is given twice. *)
Lemma construction_needs_a_pin :
  len ([] : list Z) = 0 /\
  CapRelay.__init__ (fun _ => true) [] [] [] = Raise GPIOPinMissing /\
  ~ (exists self, CapRelay.__init__ (fun _ => true) [] [] [] = Return self) /\
  CapRelay.__init__ (fun _ => true) [22; 22] [1; 0] [0; 1] = Raise (GPIOPinInUse 22).
Proof.
  split; [reflexivity|]. split; [reflexivity|]. split; [|reflexivity].
  intros [self H]. discriminate H.
Qed.

Lemma init_state_null_witness :
  (exists self, test_relay = Return self) /\
  CapRelay.current_state relay = "null" /\
  CapRelay.num_relays relay = 4 /\
  CapRelay.get_state 0 relay = (relay, Return false).
Proof.
  destruct (init_state_null (fun _ => true) [22; 23; 24; 25] [1; 1; 0; 0] [0; 0; 1; 1])
    as [Hret Hnull].
  split.
  - apply Hret;
      [ discriminate | apply distinct_by_scan; reflexivity
      | reflexivity | reflexivity | intros p _; reflexivity ].
  - destruct (Hnull relay eq_refl) as (Hcur & Hnum & Hopen).
    split; [exact Hcur|]. split; [exact Hnum|]. apply Hopen.
    change (0 <= 0 < 4). lia.
Defined.

(** C3 as stated fails: with the entry 2 in the charge vector the
    constructor returns an object; the error comes later, from
    [set_state("charge")], after relay 0 was closed. *)
Lemma construction_accepts_entry_2 :
  ~ Forall (fun v => v = 0 \/ v = 1) [1; 2] /\
  ~ (exists e, CapRelay.__init__ (fun _ => true) [22; 23] [1; 2] [0; 0] = Raise e) /\
  exists self self',
    CapRelay.__init__ (fun _ => true) [22; 23] [1; 2] [0; 0] = Return self /\
    CapRelay.set_state "charge" self = (self', Raise (ValueError (InvalidRelayState 2 1))) /\
    CapRelay.get_state 0 self' = (self', Return true).
Proof.
  split; [|split].
  - intros H. apply Forall_cons_1 in H as [_ H]. apply Forall_cons_1 in H as [H _]. lia.
  - intros [e H]. vm_compute in H. discriminate H.
  - eexists. eexists. split; [vm_compute; reflexivity|].
    split; vm_compute; reflexivity.
Qed.

Lemma entries_checked_by_set_state_witness :
  exists self self',
    CapRelay.__init__ (fun _ => true) [22; 23] [1; 2] [0; 0] = Return self /\
    CapRelay.set_state "charge" self = (self', Raise (ValueError (InvalidRelayState 2 1))) /\
    CapRelay.current_state self' = CapRelay.current_state self /\
    CapRelay.get_state 0 self' = (self', Return true).
Proof.
  destruct entries_checked_by_set_state as [Hinit Hset].
  destruct (Hinit (fun _ => true) [22; 23] [1; 2] [0; 0])
    as (self & H & Hchg & _ & Hm & Hall);
    [ discriminate | apply distinct_by_scan; reflexivity
    | reflexivity | reflexivity | intros p _; reflexivity |].
  exists self.
  destruct (Hset self "charge" [1; 2] 1%nat 2 Hm Hall) as (self' & H' & Hcur & Hread & _).
  - unfold maps_to.
    change (CapRelay.select_config "charge" self)
      with (self, Return (CapRelay.chg_config self)).
    rewrite Hchg. reflexivity.
  - apply init_inv in H as (_ & -> & _). reflexivity.
  - reflexivity.
  - lia.
  - lia.
  - intros [|j] w Hj Hw; [injection Hw as <-; auto | lia].
  - exists self'. split; [exact H|]. split; [exact H'|]. split; [exact Hcur|].
    apply (Hread 0%nat 1); [lia | reflexivity].
Defined.

(** * Further properties of the two classes *)

(** ** Sweeps over part of a board *)

Lemma sweep_ok_range v n : forall s self,
  (forall j d, (s <= j < s + n)%nat -> leds_of self !! j = Some d ->
     gpiozero.answers d = true) ->
  (s + n <= length (leds_of self))%nat ->
  exists self', sweep v s n self = (self', Return tt).
Proof.
  unfold sweep. induction n as [|n IH]; intros s self Hall Hlen; cbn [seq].
  - exists self. reflexivity.
  - rewrite for_cons, board_write_run.
    destruct (lookup_lt_is_Some_2 (leds_of self) s ltac:(lia)) as [d Hd].
    rewrite Hd, (Hall s d ltac:(lia) Hd). apply IH.
    + intros j d' Hj Hd'. rewrite written_leds in Hd'.
      rewrite list_lookup_insert_ne in Hd' by lia. apply (Hall j d'); [lia | exact Hd'].
    + rewrite written_leds, length_insert. lia.
Qed.

Lemma sweep_split v (k n : nat) self :
  (k < n)%nat ->
  sweep v 0 n self =
  match sweep v 0 k self with
  | (mid, Return _) =>
      match RelayController.board (gpiozero.write v k) mid with
      | (mid', Return _) => sweep v (S k) (n - S k) mid'
      | (mid', Raise e) => (mid', Raise e)
      end
  | (mid, Raise e) => (mid, Raise e)
  end.
Proof.
  intros Hk. unfold sweep.
  replace n with (k + S (n - S k))%nat at 1 by lia.
  rewrite seq_app, for_app. cbn [seq]. simpl plus.
  destruct (for_ (seq 0 k) _ self) as [mid [[]|e]]; [|reflexivity].
  rewrite for_cons. reflexivity.
Qed.

Lemma sweep_calls v n : forall s self self' u,
  sweep v s n self = (self', Return u) ->
  calls_of self' =
  calls_of self ++ ((fun d => call_for v (gpiozero.pin d)) <$> take n (drop s (leds_of self))).
Proof.
  unfold sweep. induction n as [|n IH]; intros s self self' u H; cbn [seq] in H.
  - injection H as <-. rewrite take_0. simpl. rewrite app_nil_r. reflexivity.
  - rewrite for_cons, board_write_run in H.
    destruct (leds_of self !! s) as [d|] eqn:Hd; [|discriminate].
    destruct (gpiozero.answers d) eqn:Ha; [|discriminate].
    apply IH in H. rewrite H, written_leds.
    rewrite drop_insert_lt by lia.
    rewrite (drop_S _ _ _ Hd). cbn [take fmap list_fmap].
    change (calls_of (written v s d self))
      with (calls_of self ++ [call_for v (gpiozero.pin d)]).
    rewrite <- app_assoc. reflexivity.
Qed.

Lemma bulk_sweep v self : bulk v self = sweep v 0 (length (leds_of self)) self.
Proof. destruct v; reflexivity. Qed.

Lemma sweep_all_leds v self self' u :
  sweep v 0 (length (leds_of self)) self = (self', Return u) ->
  leds_of self' = gpiozero.set_lit v <$> leds_of self.
Proof.
  intros H. apply sweep_Return_inv in H as (_ & _ & Hl & Hin & Hout).
  apply list_eq. intros k. rewrite list_lookup_fmap.
  destruct (decide (k < length (leds_of self))%nat) as [Hk|Hk].
  - destruct (Hin k ltac:(lia)) as (d & -> & _ & ->). reflexivity.
  - rewrite Hout by lia. rewrite (lookup_ge_None_2 (leds_of self) k) by lia.
    reflexivity.
Qed.

Lemma sweep_stops v self (k : nat) d :
  leds_of self !! k = Some d ->
  gpiozero.answers d = false ->
  (forall (j : nat) d', (j < k)%nat -> leds_of self !! j = Some d' ->
     gpiozero.answers d' = true) ->
  exists self',
    sweep v 0 (length (leds_of self)) self = (self', Raise (GPIOError (gpiozero.pin d))) /\
    (forall j : nat, (j < k)%nat ->
       leds_of self' !! j = gpiozero.set_lit v <$> leds_of self !! j) /\
    (forall j : nat, (k <= j)%nat -> leds_of self' !! j = leds_of self !! j).
Proof.
  intros Hd Ha Hbefore.
  assert (Hk : (k < length (leds_of self))%nat) by (eapply lookup_lt_Some, Hd).
  rewrite (sweep_split _ k _ _ Hk).
  destruct (sweep_ok_range v k 0 self) as [mid Hmid].
  { intros j d' Hj. apply Hbefore. lia. }
  { lia. }
  rewrite Hmid.
  apply sweep_Return_inv in Hmid as (_ & _ & _ & Hin & Hout).
  rewrite board_write_run, (Hout k ltac:(lia)), Hd, Ha.
  eexists. split; [reflexivity|]. split.
  - intros j Hj. destruct (Hin j ltac:(lia)) as (d' & -> & _ & Hj'). exact Hj'.
  - intros j Hj. apply Hout. lia.
Qed.

(** ** close_all and open_all, in full *)

(** X1.  When [close_all] (or [open_all]) returns it has written the
    unlit (lit) level to every LED of the board and issued one [off]
    ([on]) call per LED, in the order of the board; [num_relays] and
    [relay_pins] are as before. *)
Theorem bulk_success v self self' u :
  bulk v self = (self', Return u) ->
  leds_of self' = gpiozero.set_lit v <$> leds_of self /\
  calls_of self' =
    calls_of self ++ ((fun d => call_for v (gpiozero.pin d)) <$> leds_of self) /\
  RelayController.num_relays self' = RelayController.num_relays self /\
  RelayController.relay_pins self' = RelayController.relay_pins self.
Proof.
  rewrite bulk_sweep. intros H.
  split; [eapply sweep_all_leds, H|]. split.
  - rewrite (sweep_calls _ _ _ _ _ _ H), drop_0, firstn_all. reflexivity.
  - apply sweep_Return_inv in H as (Hn & Hp & _). auto.
Qed.

Lemma bulk_success_witness :
  exists self',
    bulk false (CapRelay.super relay) = (self', Return tt) /\
    leds_of self' = gpiozero.set_lit false <$> leds_of (CapRelay.super relay).
Proof.
  eexists. split; [vm_compute; reflexivity|].
  eapply (bulk_success false (CapRelay.super relay) _ tt). vm_compute. reflexivity.
Defined.

(** X2.  [close_all] and [open_all] return exactly when every LED of the
    board answers. *)
Theorem bulk_returns_iff v self :
  (exists self', bulk v self = (self', Return tt)) <->
  Forall (fun d => gpiozero.answers d = true) (leds_of self).
Proof.
  rewrite bulk_sweep. split.
  - intros [self' H]. apply sweep_Return_inv in H as (_ & _ & _ & Hin & _).
    apply Forall_lookup. intros k d Hd.
    destruct (Hin k) as (d' & Hd' & Ha & _).
    { apply lookup_lt_Some in Hd. lia. }
    congruence.
  - intros Hall.
    destruct (sweep_ok v (length (leds_of self)) 0 self Hall ltac:(lia))
      as (self' & H & _). eauto.
Qed.

Lemma bulk_returns_iff_witness :
  exists self', bulk true (CapRelay.super relay) = (self', Return tt).
Proof.
  apply (proj2 (bulk_returns_iff true (CapRelay.super relay))).
  repeat (apply Forall_cons_2; [reflexivity|]). apply Forall_nil_2.
Defined.

(** X3.  [close_all] and [open_all] stop at the first LED that does not
    answer: they raise its error, the LEDs before it have the new level
    and the LEDs from it on keep theirs. *)
Theorem bulk_failure v self (k : nat) d :
  leds_of self !! k = Some d ->
  gpiozero.answers d = false ->
  (forall (j : nat) d', (j < k)%nat -> leds_of self !! j = Some d' ->
     gpiozero.answers d' = true) ->
  exists self',
    bulk v self = (self', Raise (GPIOError (gpiozero.pin d))) /\
    (forall j : nat, (j < k)%nat ->
       leds_of self' !! j = gpiozero.set_lit v <$> leds_of self !! j) /\
    (forall j : nat, (k <= j)%nat -> leds_of self' !! j = leds_of self !! j).
Proof. rewrite bulk_sweep. apply sweep_stops. Qed.

Lemma bulk_failure_witness :
  exists self',
    bulk false (CapRelay.super relay_pin24_lost) = (self', Raise (GPIOError 24)) /\
    (forall j : nat, (j < 2)%nat ->
       leds_of self' !! j
       = gpiozero.set_lit false <$> leds_of (CapRelay.super relay_pin24_lost) !! j) /\
    (forall j : nat, (2 <= j)%nat ->
       leds_of self' !! j = leds_of (CapRelay.super relay_pin24_lost) !! j).
Proof.
  apply (bulk_failure false (CapRelay.super relay_pin24_lost) 2
           {| gpiozero.pin := 24; gpiozero.is_lit := true; gpiozero.answers := false |}).
  - reflexivity.
  - reflexivity.
  - intros [|[|j]] d' Hj Hd'; [| |lia]; injection Hd' as <-; reflexivity.
Defined.

(** ** RelayController.__init__ *)

(** The board of a RelayController that has just been constructed. *)
Lemma base_init_board hw pins base :
  RelayController.__init__ hw pins = Return base ->
  Forall (fun p => hw p = true) pins /\
  leds_of base = new_led <$> pins /\
  calls_of base = gpiozero.on_ <$> pins.
Proof.
  rewrite base_init_run.
  destruct (gpiozero.new hw pins) as [b|e0] eqn:Hnew; [|discriminate].
  apply new_inv in Hnew as (_ & _ & ->).
  change (length (gpiozero.leds (gpiozero.wired hw pins)))
    with (length (leds_of {| RelayController.relay_pins := pins;
                             RelayController.num_relays := len pins;
                             RelayController._board := gpiozero.wired hw pins |})).
  match goal with |- context [sweep ?v ?s ?n ?o] =>
    destruct (sweep v s n o) as [self' [u|e]] eqn:H; set (self0 := o) in * end;
    [|discriminate].
  intros [= <-].
  assert (Hhw : Forall (fun p => hw p = true) pins).
  { pose proof H as H'. apply sweep_Return_inv in H' as (_ & _ & _ & Hin & _).
    apply Forall_lookup. intros k p Hp.
    destruct (Hin k) as (d & Hd & Ha & _).
    { apply lookup_lt_Some in Hp. unfold self0, leds_of. simpl.
      rewrite length_fmap. lia. }
    unfold self0, leds_of in Hd. simpl in Hd.
    rewrite list_lookup_fmap, Hp in Hd. injection Hd as <-. exact Ha. }
  split; [exact Hhw|]. split.
  - rewrite (sweep_all_leds _ _ _ _ H). unfold self0, leds_of. simpl.
    rewrite <- list_fmap_compose. apply Forall_fmap_ext_1.
    eapply Forall_impl; [exact Hhw|]. intros p Hp. unfold new_led. simpl.
    unfold gpiozero.set_lit. simpl. rewrite Hp. reflexivity.
  - rewrite (sweep_calls _ _ _ _ _ _ H), drop_0, firstn_all.
    unfold self0, calls_of, leds_of. simpl. rewrite <- list_fmap_compose.
    reflexivity.
Qed.

Lemma base_init_stops hw good p rest :
  NoDup (good ++ p :: rest) ->
  Forall (fun q => hw q = true) good -> hw p = false ->
  RelayController.__init__ hw (good ++ p :: rest) = Raise (GPIOError p).
Proof.
  intros Hnd Hgood Hp. rewrite base_init_run, new_ok;
    [|destruct good; discriminate | exact Hnd].
  change (length (gpiozero.leds (gpiozero.wired hw (good ++ p :: rest))))
    with (length (leds_of {| RelayController.relay_pins := good ++ p :: rest;
                             RelayController.num_relays := len (good ++ p :: rest);
                             RelayController._board :=
                               gpiozero.wired hw (good ++ p :: rest) |})).
  match goal with |- context [sweep ?v ?s ?n ?o] => set (self0 := o) end.
  destruct (sweep_stops true self0 (length good)
              {| gpiozero.pin := p; gpiozero.is_lit := false; gpiozero.answers := false |})
    as (self' & H & _).
  - unfold self0, leds_of. simpl. rewrite list_lookup_fmap.
    rewrite lookup_app_r by lia. rewrite Nat.sub_diag. simpl. rewrite Hp. reflexivity.
  - reflexivity.
  - intros j d' Hj Hd'. unfold self0, leds_of in Hd'. simpl in Hd'.
    rewrite list_lookup_fmap, lookup_app_l in Hd' by lia.
    destruct (good !! j) as [q|] eqn:Hq; [|discriminate].
    injection Hd' as <-. simpl. rewrite Forall_lookup in Hgood. eapply Hgood, Hq.
  - rewrite H. reflexivity.
Qed.

(** X4.  [RelayController(pins)] returns exactly when there is at least
    one pin, no pin is given twice and every pin answers.  The object
    then has [num_relays = len(pins)], one lit LED per pin in the order
    given, and has issued one [on] call per pin in that order: every
    relay starts open. *)
Theorem base_init_returns hw pins :
  ((exists base, RelayController.__init__ hw pins = Return base) <->
   pins <> [] /\ NoDup pins /\ Forall (fun p => hw p = true) pins) /\
  (forall base, RelayController.__init__ hw pins = Return base ->
     base = {| RelayController.relay_pins := pins;
               RelayController.num_relays := len pins;
               RelayController._board :=
                 {| gpiozero.leds := new_led <$> pins;
                    gpiozero.calls := gpiozero.on_ <$> pins |} |}).
Proof.
  split; [split|].
  - intros [base H]. pose proof (base_init_pins _ _ _ H) as [Hne Hnd].
    apply base_init_board in H as [H _]. auto.
  - intros (Hne & Hnd & Hall).
    destruct (base_init_ok hw pins Hne Hnd) as (base & H & _); [|eauto].
    intros p Hp. rewrite Forall_forall in Hall. auto.
  - intros base H. pose proof (base_init_inv _ _ _ H) as (Hn & Hp & _).
    apply base_init_board in H as (_ & Hl & Hc).
    destruct base as [rp n [l c]]. unfold leds_of, calls_of in *. simpl in *.
    subst. reflexivity.
Qed.

Lemma base_init_returns_witness :
  exists base, RelayController.__init__ (fun _ => true) [22; 23] = Return base.
Proof.
  apply (proj2 (proj1 (base_init_returns (fun _ => true) [22; 23]))).
  split; [discriminate|]. split; [apply distinct_by_scan; reflexivity|].
  repeat (apply Forall_cons_2; [reflexivity|]). apply Forall_nil_2.
Defined.

(** X5.  With pins that can be allocated (none given twice),
    [RelayController(pins)] raises the error of the first pin that does
    not answer. *)
Theorem base_init_failure hw good p rest :
  NoDup (good ++ p :: rest) ->
  Forall (fun q => hw q = true) good -> hw p = false ->
  RelayController.__init__ hw (good ++ p :: rest) = Raise (GPIOError p).
Proof. apply base_init_stops. Qed.

Lemma base_init_failure_witness :
  RelayController.__init__ (fun p => negb (p =? 24)) ([22; 23] ++ 24 :: [25])
  = Raise (GPIOError 24).
Proof.
  apply (base_init_failure (fun p => negb (p =? 24)) [22; 23] 24 [25]).
  - apply distinct_by_scan. reflexivity.
  - repeat (apply Forall_cons_2; [reflexivity|]). apply Forall_nil_2.
  - reflexivity.
Defined.

(** ** set_state: what reaches the board *)

Lemma apply_loop_calls config : forall (s : nat) self self' u,
  for_ (enumerate_from (Z.of_nat s) config) CapRelay.apply_entry self = (self', Return u) ->
  cap_calls self' = cap_calls self ++ calls_for (drop s (cap_leds self)) config.
Proof.
  induction config as [|v config IH]; intros s self self' u H;
    cbn [enumerate_from] in H.
  - injection H as <-. unfold calls_for. rewrite zip_with_nil_r, app_nil_r. reflexivity.
  - rewrite for_cons in H.
    destruct (CapRelay.apply_entry (Z.of_nat s, v) self) as [mid [[]|e]] eqn:E;
      [|discriminate].
    apply apply_entry_Return_inv in E as (_ & _ & d & Hd & _ & ->).
    rewrite Nat2Z.id in Hd, H.
    replace (Z.of_nat s + 1) with (Z.of_nat (S s)) in H by lia.
    apply IH in H. rewrite H, written_cap_leds.
    rewrite drop_insert_lt by lia. rewrite (drop_S _ _ _ Hd).
    unfold calls_for. cbn [zip_with].
    change (cap_calls (CapRelay.with_super
                         (written (level_for v) s d (CapRelay.super self)) self))
      with (cap_calls self ++ [call_for (level_for v) (gpiozero.pin d)]).
    rewrite <- app_assoc. reflexivity.
Qed.

Lemma apply_loop_leds V self self' u :
  for_ (enumerate V) CapRelay.apply_entry self = (self', Return u) ->
  cap_leds self' = applied V (cap_leds self).
Proof.
  intros H. apply (apply_loop_Return_inv V 0) in H as (_ & _ & Hin & Hout).
  simpl in Hin, Hout.
  assert (Hlen : (length V <= length (cap_leds self))%nat).
  { destruct V as [|v0 V0] eqn:EV; [simpl; lia|]. rewrite <- EV in *.
    destruct (lookup_lt_is_Some_2 V (length V - 1)) as [v Hv].
    { rewrite EV. simpl. lia. }
    destruct (Hin _ _ Hv) as (_ & _ & d & Hd & _).
    apply lookup_lt_Some in Hd. rewrite EV in *. simpl in *. lia. }
  apply list_eq. intros k. unfold applied.
  destruct (decide (k < length V)%nat) as [Hk|Hk].
  - rewrite lookup_app_l by (rewrite length_zip_with; lia).
    destruct (lookup_lt_is_Some_2 V k Hk) as [v Hv].
    destruct (Hin _ _ Hv) as (_ & _ & d & Hd & _ & ->).
    rewrite lookup_zip_with, Hd, Hv. reflexivity.
  - rewrite lookup_app_r by (rewrite length_zip_with; lia).
    rewrite length_zip_with, lookup_drop, Hout by lia.
    f_equal. lia.
Qed.

(** X6.  A [set_state] that returns has written each entry of its vector
    to the LED of the same position and issued the calls in ascending
    order of position, one per entry (off for 1, on for 0); LEDs beyond
    the vector keep their level. *)
Theorem set_state_effect self state_name V self' r :
  maps_to self state_name V ->
  CapRelay.set_state state_name self = (self', Return r) ->
  cap_leds self' = applied V (cap_leds self) /\
  cap_calls self' = cap_calls self ++ calls_for (cap_leds self) V.
Proof.
  intros HV H. rewrite (set_state_run _ _ _ HV) in H.
  destruct (for_ (enumerate V) CapRelay.apply_entry self) as [mid [[]|e]] eqn:Hloop;
    [|discriminate].
  injection H as <- _. split.
  - rewrite with_current_state_leds. eapply apply_loop_leds, Hloop.
  - apply (apply_loop_calls V 0) in Hloop. rewrite drop_0 in Hloop. exact Hloop.
Qed.

Lemma set_state_effect_witness :
  exists self',
    CapRelay.set_state "charge" relay = (self', Return PyNone) /\
    cap_leds self' = applied [1; 1; 0; 0] (cap_leds relay) /\
    cap_calls self' = cap_calls relay ++ calls_for (cap_leds relay) [1; 1; 0; 0].
Proof.
  eexists. split; [vm_compute; reflexivity|].
  apply (set_state_effect relay "charge" [1; 1; 0; 0] _ PyNone).
  - reflexivity.
  - reflexivity.
Defined.

(** ** CapRelay.__init__ *)

Lemma base_init_value hw pins base :
  RelayController.__init__ hw pins = Return base ->
  base = {| RelayController.relay_pins := pins;
            RelayController.num_relays := len pins;
            RelayController._board :=
              {| gpiozero.leds := new_led <$> pins;
                 gpiozero.calls := gpiozero.on_ <$> pins |} |}.
Proof.
  intros H. pose proof (base_init_inv _ _ _ H) as (Hn & Hp & _).
  apply base_init_board in H as (_ & Hl & Hc).
  destruct base as [rp n [l c]]. unfold leds_of, calls_of in *. simpl in *.
  subst. reflexivity.
Qed.

Lemma applied_null pins :
  applied (replicate (length pins) 0) (new_led <$> pins) = new_led <$> pins.
Proof.
  unfold applied. rewrite length_replicate, drop_ge by (rewrite length_fmap; lia).
  rewrite app_nil_r. induction pins as [|p pins IH]; [reflexivity|].
  rewrite fmap_cons. cbn [length replicate zip_with]. rewrite IH. reflexivity.
Qed.

Lemma calls_for_null pins :
  calls_for (new_led <$> pins) (replicate (length pins) 0) = gpiozero.on_ <$> pins.
Proof.
  unfold calls_for. induction pins as [|p pins IH]; [reflexivity|].
  rewrite !fmap_cons. cbn [length replicate zip_with]. rewrite IH. reflexivity.
Qed.

Lemma init_value hw pins chg dmp self :
  CapRelay.__init__ hw pins chg dmp = Return self -> self = fresh pins chg dmp.
Proof.
  rewrite init_run.
  destruct (RelayController.__init__ hw pins) as [base|e] eqn:Hb; [|discriminate].
  apply base_init_value in Hb as ->.
  destruct (Z.eqb_spec (len chg) (len dmp)); [|discriminate].
  destruct (Z.eqb_spec (len pins) (len chg)); [|discriminate].
  cbn [negb]. rewrite (set_state_run _ _ _ (null_maps_to _)).
  destruct (for_ _ _ _) as [mid [[]|e']] eqn:Hloop; [|discriminate].
  intros [= <-].
  pose proof (apply_loop_leds _ _ _ _ Hloop) as Hl.
  pose proof (apply_loop_calls _ 0 _ _ _ Hloop) as Hc.
  apply (apply_loop_Return_inv _ 0) in Hloop as (Hsetup & Hcur & _ & _).
  destruct Hsetup as [Hchg Hdmp Hnull Hnum Hpins _].
  rewrite drop_0 in Hc.
  destruct mid as [[rp n [l c]] chg' dmp' cur nul].
  unfold cap_leds, cap_calls, leds_of, calls_of, CapRelay.num_relays,
    CapRelay.relay_pins, before_null in *. simpl in *.
  rewrite applied_null in Hl. rewrite calls_for_null in Hc.
  subst. reflexivity.
Qed.

(** X7.  [CapRelay(pins, chg, dmp)] returns exactly when there is at
    least one pin, no pin is given twice, every pin answers and the three
    lists have the same length; the entries of the vectors play no
    part. *)
Theorem init_returns_iff hw pins chg dmp :
  (exists self, CapRelay.__init__ hw pins chg dmp = Return self) <->
  pins <> [] /\ NoDup pins /\ Forall (fun p => hw p = true) pins /\
  len chg = len dmp /\ len pins = len chg.
Proof.
  split.
  - intros [self H]. pose proof H as H'. rewrite init_run in H'.
    destruct (RelayController.__init__ hw pins) as [base|e] eqn:Hb; [|discriminate].
    pose proof (base_init_pins _ _ _ Hb) as [Hne Hnd].
    apply base_init_board in Hb as [Hhw _].
    apply init_inv in H as (_ & _ & _ & _ & _ & Hc & Hd & _).
    repeat split; [exact Hne | exact Hnd | exact Hhw | lia | lia].
  - intros (Hne & Hnd & Hhw & Hcd & Hpc).
    destruct (init_ok hw pins chg dmp Hne Hnd Hcd Hpc) as (self & H & _); [|eauto].
    intros p Hp. rewrite Forall_forall in Hhw. auto.
Qed.

Lemma init_returns_iff_witness :
  exists self, CapRelay.__init__ (fun _ => true) [22; 23] [1; 2] [0; 0] = Return self.
Proof.
  apply (proj2 (init_returns_iff (fun _ => true) [22; 23] [1; 2] [0; 0])).
  split; [discriminate|]. split; [apply distinct_by_scan; reflexivity|].
  split; [|split; reflexivity].
  repeat (apply Forall_cons_2; [reflexivity|]). apply Forall_nil_2.
Defined.

(** X8.  The object a constructor call returns is determined by its
    arguments: the lists as given, [current_state = "null"],
    [null_state = [0] * N], every LED lit, and two [on] calls per pin
    issued, in pin order and then in pin order again; no [off] call. *)
Theorem init_result hw pins chg dmp self :
  CapRelay.__init__ hw pins chg dmp = Return self -> self = fresh pins chg dmp.
Proof. apply init_value. Qed.

Lemma init_result_witness : relay = fresh [22; 23; 24; 25] [1; 1; 0; 0] [0; 0; 1; 1].
Proof.
  apply (init_result (fun _ => true) [22; 23; 24; 25] [1; 1; 0; 0] [0; 0; 1; 1]).
  reflexivity.
Defined.

(** X9.  With pins that can be allocated (at least one, none given
    twice), the errors of the constructor in the order the code meets
    them: the error of the first pin that does not answer, whatever the
    vectors; then, with pins that answer, the ValueError for
    [len(chg_config) != len(dmp_config)]; then the ValueError for
    [len(relay_pins) != len(chg_config)]. *)
Theorem init_errors hw pins chg dmp :
  pins <> [] -> NoDup pins ->
  (forall good p rest, pins = good ++ p :: rest ->
     Forall (fun q => hw q = true) good -> hw p = false ->
     CapRelay.__init__ hw pins chg dmp = Raise (GPIOError p)) /\
  (Forall (fun p => hw p = true) pins -> len chg <> len dmp ->
   CapRelay.__init__ hw pins chg dmp = Raise (ValueError ConfigSizesDiffer)) /\
  (Forall (fun p => hw p = true) pins -> len chg = len dmp -> len pins <> len chg ->
   CapRelay.__init__ hw pins chg dmp = Raise (ValueError (PinsRequired (len chg)))).
Proof.
  intros Hne Hnd. split; [|split].
  - intros good p rest -> Hgood Hp. rewrite init_run.
    rewrite (base_init_stops _ _ _ _ Hnd Hgood Hp). reflexivity.
  - intros Hhw Hcd. rewrite init_run.
    destruct (base_init_ok hw pins Hne Hnd) as (base & -> & _).
    { intros p Hp. rewrite Forall_forall in Hhw. auto. }
    destruct (Z.eqb_spec (len chg) (len dmp)); [contradiction | reflexivity].
  - intros Hhw Heq Hpc. rewrite init_run.
    destruct (base_init_ok hw pins Hne Hnd) as (base & -> & _).
    { intros p Hp. rewrite Forall_forall in Hhw. auto. }
    destruct (Z.eqb_spec (len chg) (len dmp)); [|contradiction].
    destruct (Z.eqb_spec (len pins) (len chg)); [contradiction | reflexivity].
Qed.

Lemma init_errors_witness :
  CapRelay.__init__ (fun p => negb (p =? 23)) [22; 23] [1] [0; 0] = Raise (GPIOError 23) /\
  CapRelay.__init__ (fun _ => true) [22; 23] [1] [0; 0] = Raise (ValueError ConfigSizesDiffer) /\
  CapRelay.__init__ (fun _ => true) [22; 23] [1] [0]
  = Raise (ValueError (PinsRequired 1)).
Proof.
  assert (Hne : [22; 23] <> ([] : list Z)) by discriminate.
  assert (Hnd : NoDup [22; 23]) by (apply distinct_by_scan; reflexivity).
  split; [|split].
  - apply (proj1 (init_errors (fun p => negb (p =? 23)) [22; 23] [1] [0; 0] Hne Hnd)
             [22] 23 []).
    + reflexivity.
    + apply Forall_cons_2; [reflexivity | apply Forall_nil_2].
    + reflexivity.
  - apply (proj1 (proj2 (init_errors (fun _ => true) [22; 23] [1] [0; 0] Hne Hnd))).
    + repeat (apply Forall_cons_2; [reflexivity|]). apply Forall_nil_2.
    + unfold len. simpl. lia.
  - apply (proj2 (proj2 (init_errors (fun _ => true) [22; 23] [1] [0] Hne Hnd))).
    + repeat (apply Forall_cons_2; [reflexivity|]). apply Forall_nil_2.
    + reflexivity.
    + unfold len. simpl. lia.
Defined.

(** ** set_state: when it returns, and how it fails *)

Lemma apply_loop_Raise_inv config : forall (s : nat) self self' e,
  for_ (enumerate_from (Z.of_nat s) config) CapRelay.apply_entry self = (self', Raise e) ->
  exists (k : nat) v mid u,
    config !! k = Some v /\
    for_ (enumerate_from (Z.of_nat s) (take k config)) CapRelay.apply_entry self
      = (mid, Return u) /\
    CapRelay.apply_entry (Z.of_nat (s + k), v) mid = (self', Raise e).
Proof.
  induction config as [|v config IH]; intros s self self' e H;
    cbn [enumerate_from] in H.
  - discriminate.
  - rewrite for_cons in H.
    destruct (CapRelay.apply_entry (Z.of_nat s, v) self) as [mid [[]|e']] eqn:E.
    + replace (Z.of_nat s + 1) with (Z.of_nat (S s)) in H by lia.
      apply IH in H as (k & w & mid' & u & Hk & Hpre & Hfail).
      exists (S k), w, mid', u. split; [exact Hk|]. split.
      * cbn [take enumerate_from]. rewrite for_cons, E.
        replace (Z.of_nat s + 1) with (Z.of_nat (S s)) by lia. exact Hpre.
      * replace (s + S k)%nat with (S s + k)%nat by lia. exact Hfail.
    + injection H as <- <-. exists 0%nat, v, self, tt.
      split; [reflexivity|]. split; [reflexivity|].
      rewrite Nat.add_0_r. exact E.
Qed.

Lemma maps_to_len self state_name V :
  well_formed self -> maps_to self state_name V -> len V = CapRelay.num_relays self.
Proof.
  intros (_ & Hc & Hd & Hn). unfold maps_to, CapRelay.select_config.
  repeat match goal with
         | |- context [if ?b then _ else _] => destruct b
         end; intros [= <-]; assumption.
Qed.

Lemma maps_to_defined self state_name V :
  maps_to self state_name V -> defined_state (lower state_name).
Proof.
  unfold maps_to, CapRelay.select_config, defined_state.
  destruct (String.eqb_spec (lower state_name) "charge"); [auto|].
  destruct (String.eqb_spec (lower state_name) "dump"); [auto|].
  destruct (String.eqb_spec (lower state_name) "null"); [auto|].
  discriminate.
Qed.

(** X10.  On an object whose board and vectors have [num_relays]
    entries, [set_state] of a defined name returns exactly when every
    entry of its vector is 0 or 1 and every LED answers. *)
Theorem set_state_returns_iff self state_name V :
  well_formed self -> maps_to self state_name V ->
  (exists self', CapRelay.set_state state_name self = (self', Return PyNone)) <->
  Forall valid_entry V /\ all_answer self.
Proof.
  intros Hwf HV. pose proof (maps_to_len _ _ _ Hwf HV) as Hlen.
  destruct Hwf as (Hm & _). unfold board_matches, len in *.
  rewrite (set_state_run _ _ _ HV). split.
  - intros [self' H].
    destruct (for_ (enumerate V) CapRelay.apply_entry self) as [mid [[]|e]] eqn:Hloop;
      [|discriminate].
    apply (apply_loop_Return_inv V 0) in Hloop as (_ & _ & Hin & _). split.
    + apply Forall_lookup. intros k v Hv. apply (Hin _ _ Hv).
    + apply Forall_lookup. intros k d Hd.
      destruct (lookup_lt_is_Some_2 V k) as [v Hv].
      { apply lookup_lt_Some in Hd. lia. }
      destruct (Hin _ _ Hv) as (_ & _ & d' & Hd' & Ha & _). simpl in Hd'. congruence.
  - intros [Hvalid Hall].
    destruct (apply_loop_ok V 0 self Hvalid) as (mid & Hloop & _); [lia | exact Hm | exact Hall |].
    change (Z.of_nat 0) with 0 in Hloop. unfold enumerate. rewrite Hloop. eauto.
Qed.

Lemma set_state_returns_iff_witness :
  exists self', CapRelay.set_state "dump" relay = (self', Return PyNone).
Proof.
  apply (proj2 (set_state_returns_iff relay "dump" [0; 0; 1; 1]
                  ltac:(repeat split) eq_refl)).
  split.
  - repeat (apply Forall_cons_2; [unfold valid_entry; lia|]). apply Forall_nil_2.
  - repeat (apply Forall_cons_2; [reflexivity|]). apply Forall_nil_2.
Defined.

(** X11.  On such an object a [set_state] of a defined name raises for
    two reasons only: the message for the first entry outside {0,1}, or
    the error of the first LED that does not answer.  It never raises
    the range error of [close] and [open]. *)
Theorem set_state_raises_only self state_name V self' e :
  well_formed self -> maps_to self state_name V ->
  CapRelay.set_state state_name self = (self', Raise e) ->
  exists (k : nat),
    (forall (j : nat) w, (j < k)%nat -> V !! j = Some w -> valid_entry w) /\
    (forall (j : nat) d, (j < k)%nat -> cap_leds self !! j = Some d ->
       gpiozero.answers d = true) /\
    ((exists v, V !! k = Some v /\ ~ valid_entry v /\
                e = ValueError (InvalidRelayState v (Z.of_nat k))) \/
     (exists v d, V !! k = Some v /\ valid_entry v /\
                  cap_leds self !! k = Some d /\ gpiozero.answers d = false /\
                  e = GPIOError (gpiozero.pin d))).
Proof.
  intros Hwf HV H. pose proof (maps_to_len _ _ _ Hwf HV) as Hlen.
  destruct Hwf as (Hm & _). unfold board_matches, len in *.
  rewrite (set_state_run _ _ _ HV) in H.
  destruct (for_ (enumerate V) CapRelay.apply_entry self) as [mid [[]|e']] eqn:Hloop;
    [discriminate|].
  injection H as -> ->.
  apply (apply_loop_Raise_inv V 0) in Hloop as (k & v & mid & u & Hv & Hpre & Hfail).
  change (Z.of_nat (0 + k)) with (Z.of_nat k) in Hfail.
  assert (Hk : (k < length V)%nat) by (eapply lookup_lt_Some, Hv).
  apply (apply_loop_Return_inv (take k V) 0) in Hpre as (Hsetup & _ & Hin & Hout).
  simpl in Hin, Hout. rewrite length_take in Hout.
  exists k. split; [|split].
  - intros j w Hj Hw. apply (Hin j w). rewrite lookup_take_lt; assumption.
  - intros j d Hj Hd.
    destruct (lookup_lt_is_Some_2 V j ltac:(lia)) as [w Hw].
    destruct (Hin j w) as (_ & _ & d' & Hd' & Ha & _);
      [rewrite lookup_take_lt; assumption|]. congruence.
  - destruct (decide (valid_entry v)) as [Hvalid|Hvalid].
    + right. rewrite (apply_entry_level _ _ Hvalid) in Hfail.
      apply inherited_inv in Hfail as (base & Hfail & ->).
      destruct (lookup_lt_is_Some_2 (cap_leds self) k ltac:(lia)) as [d Hd].
      assert (Hd' : leds_of (CapRelay.super mid) !! Z.to_nat (Z.of_nat k) = Some d).
      { rewrite Nat2Z.id. change (cap_leds mid !! k = Some d).
        rewrite Hout by lia. exact Hd. }
      assert (Hi : in_range (CapRelay.super mid) (Z.of_nat k)).
      { unfold in_range. change (0 <= Z.of_nat k < CapRelay.num_relays mid).
        rewrite (same_num _ _ Hsetup). lia. }
      destruct (gpiozero.answers d) eqn:Ha.
      * rewrite (switch_ok _ _ _ _ Hi Hd' Ha) in Hfail. discriminate.
      * rewrite (switch_mute _ _ _ _ Hi Hd' Ha) in Hfail. injection Hfail as _ <-.
        exists v, d. auto 6.
    + left. unfold valid_entry in Hvalid.
      rewrite apply_entry_invalid in Hfail by lia. injection Hfail as _ <-.
      exists v. auto.
Qed.

Lemma set_state_raises_only_witness :
  exists (k : nat),
    (forall (j : nat) w, (j < k)%nat -> [1; 1; 0; 0] !! j = Some w -> valid_entry w) /\
    (forall (j : nat) d, (j < k)%nat -> cap_leds relay_pin24_lost !! j = Some d ->
       gpiozero.answers d = true) /\
    ((exists v, [1; 1; 0; 0] !! k = Some v /\ ~ valid_entry v /\
                GPIOError 24 = ValueError (InvalidRelayState v (Z.of_nat k))) \/
     (exists v d, [1; 1; 0; 0] !! k = Some v /\ valid_entry v /\
                  cap_leds relay_pin24_lost !! k = Some d /\
                  gpiozero.answers d = false /\
                  GPIOError 24 = GPIOError (gpiozero.pin d))).
Proof.
  eapply (set_state_raises_only relay_pin24_lost "charge" [1; 1; 0; 0]).
  - repeat split.
  - reflexivity.
  - vm_compute. reflexivity.
Defined.

(** ** set_state twice, and the case of the name *)

Lemma set_lit_same d : gpiozero.set_lit (gpiozero.is_lit d) d = d.
Proof. destruct d; reflexivity. Qed.

Lemma apply_loop_again config : forall (s : nat) self,
  (forall (j : nat) v, config !! j = Some v ->
     valid_entry v /\ in_range (CapRelay.super self) (Z.of_nat (s + j)) /\
     exists d, cap_leds self !! (s + j)%nat = Some d /\ gpiozero.answers d = true /\
               gpiozero.is_lit d = level_for v) ->
  exists self',
    for_ (enumerate_from (Z.of_nat s) config) CapRelay.apply_entry self = (self', Return tt)
    /\ cap_leds self' = cap_leds self /\ same_setup self self'.
Proof.
  induction config as [|v config IH]; intros s self Hall; cbn [enumerate_from for_].
  - exists self. auto using same_setup_refl.
  - destruct (Hall 0%nat v eq_refl) as (Hv & Hi & d & Hd & Ha & Hlit).
    rewrite Nat.add_0_r in Hi, Hd.
    rewrite (bind_Return _ _ _ _ _
               (apply_entry_ok _ _ _ _ Hv Hi ltac:(rewrite Nat2Z.id; exact Hd) Ha)).
    rewrite Nat2Z.id.
    replace (Z.of_nat s + 1) with (Z.of_nat (S s)) by lia.
    set (mid := CapRelay.with_super _ self).
    assert (Hmid : cap_leds mid = cap_leds self).
    { unfold mid. rewrite written_cap_leds, <- Hlit, set_lit_same.
      apply list_insert_id, Hd. }
    destruct (IH (S s) mid) as (self' & H & Hl & Hs).
    + intros j w Hw. destruct (Hall (S j) w Hw) as (Hw' & Hr & d' & Hd' & Ha' & Hlit').
      replace (s + S j)%nat with (S s + j)%nat in Hr, Hd' by lia.
      split; [exact Hw'|]. split; [exact Hr|]. exists d'. rewrite Hmid. auto.
    + exists self'. split; [exact H|]. split; [congruence|].
      eapply same_setup_trans; [apply written_keeps_setup | exact Hs].
Qed.

Lemma set_state_Return_maps state_name self self' r :
  CapRelay.set_state state_name self = (self', Return r) ->
  exists V, maps_to self state_name V.
Proof.
  intros H.
  destruct (String.eqb_spec (lower state_name) "charge") as [|Hc];
    [apply select_config_defined; auto|].
  destruct (String.eqb_spec (lower state_name) "dump") as [|Hd];
    [apply select_config_defined; auto|].
  destruct (String.eqb_spec (lower state_name) "null") as [|Hn];
    [apply select_config_defined; auto|].
  unfold CapRelay.set_state in H.
  rewrite (bind_Raise _ _ _ _ _ (select_config_undefined state_name self Hc Hd Hn)) in H.
  discriminate.
Qed.

Lemma maps_to_same_setup self self' state_name V :
  same_setup self self' -> maps_to self state_name V -> maps_to self' state_name V.
Proof.
  intros [Hc Hd Hn _ _ _]. unfold maps_to, CapRelay.select_config, gets.
  repeat match goal with
         | |- context [if ?b then _ else _] => destruct b
         end; intros [= <-]; congruence.
Qed.

Lemma maps_to_lower self a b V :
  lower a = lower b -> maps_to self a V -> maps_to self b V.
Proof.
  unfold maps_to, CapRelay.select_config. intros <-.
  repeat match goal with
         | |- context [if ?b then _ else _] => destruct b
         end; auto; discriminate.
Qed.

(** X12.  [set_state] is idempotent on the board: after a [set_state]
    that returned, the same call returns again and leaves every LED and
    [current_state] as they are. *)
Theorem set_state_idempotent self state_name self' r :
  CapRelay.set_state state_name self = (self', Return r) ->
  exists self'',
    CapRelay.set_state state_name self' = (self'', Return PyNone) /\
    cap_leds self'' = cap_leds self' /\
    CapRelay.current_state self'' = CapRelay.current_state self'.
Proof.
  intros H. destruct (set_state_Return_maps _ _ _ _ H) as [V HV].
  rewrite (set_state_run _ _ _ HV) in H.
  destruct (for_ (enumerate V) CapRelay.apply_entry self) as [mid [[]|e]] eqn:Hloop;
    [|discriminate].
  injection H as <- _.
  apply (apply_loop_Return_inv V 0) in Hloop as (Hsetup & _ & Hin & _).
  set (self1 := CapRelay.with_current_state (lower state_name) mid).
  assert (Hsetup1 : same_setup self self1) by (destruct Hsetup; split; assumption).
  rewrite (set_state_run _ _ _ (maps_to_same_setup _ _ _ _ Hsetup1 HV)).
  destruct (apply_loop_again V 0 self1) as (self2 & H2 & Hl & _).
  - intros j v Hv. destruct (Hin j v Hv) as (Hvalid & Hr & d & _ & Ha & Hd).
    split; [exact Hvalid|]. split.
    + unfold in_range in *. change (0 <= Z.of_nat (0 + j) < CapRelay.num_relays mid).
      rewrite (same_num _ _ Hsetup). exact Hr.
    + exists (gpiozero.set_lit (level_for v) d). auto.
  - change (Z.of_nat 0) with 0 in H2. unfold enumerate. rewrite H2.
    eexists. split; [reflexivity|]. split; [exact Hl | reflexivity].
Qed.

Lemma set_state_idempotent_witness :
  exists self' self'',
    CapRelay.set_state "charge" relay = (self', Return PyNone) /\
    CapRelay.set_state "charge" self' = (self'', Return PyNone) /\
    cap_leds self'' = cap_leds self' /\
    CapRelay.current_state self'' = CapRelay.current_state self'.
Proof.
  eexists.
  destruct (set_state_idempotent relay "charge" _ PyNone ltac:(vm_compute; reflexivity))
    as (self'' & H).
  exists self''. split; [reflexivity | exact H].
Defined.

(** X13.  Only the lowercased name counts: two names with the same
    lowercase form, one of them defined, make [set_state] do the same. *)
Theorem set_state_ignores_case self a b V :
  lower a = lower b -> maps_to self a V ->
  CapRelay.set_state b self = CapRelay.set_state a self.
Proof.
  intros Hab HV.
  rewrite (set_state_run _ _ _ HV), (set_state_run _ _ _ (maps_to_lower _ _ _ _ Hab HV)).
  rewrite Hab. reflexivity.
Qed.

Lemma set_state_ignores_case_witness :
  CapRelay.set_state "CHARGE" relay = CapRelay.set_state "Charge" relay.
Proof.
  apply (set_state_ignores_case relay "Charge" "CHARGE" [1; 1; 0; 0]); reflexivity.
Defined.

(** ** get_state, close and open on one relay *)

Lemma get_state_Return_inv i self self' b :
  RelayController.get_state i self = (self', Return b) ->
  in_range self i /\
  exists d, leds_of self !! Z.to_nat i = Some d /\ gpiozero.answers d = true /\
            b = negb (gpiozero.is_lit d).
Proof.
  intros H. destruct (decide (in_range self i)) as [Hi|Hi].
  - split; [exact Hi|].
    destruct (leds_of self !! Z.to_nat i) as [d|] eqn:Hd.
    + destruct (gpiozero.answers d) eqn:Ha.
      * rewrite (get_state_ok _ _ _ Hi Hd Ha) in H. injection H as _ <-. eauto.
      * unfold RelayController.get_state in H.
        rewrite (bind_Return _ _ _ _ _ (validate_in _ _ Hi)) in H.
        erewrite bind_Return in H
          by (apply zoom_run, getitem_in with (d := d); [apply Hi | exact Hd]).
        rewrite with_board_same in H.
        unfold RelayController.board, zoom, gpiozero.read, bind, gets, ret, raise in H.
        unfold leds_of in Hd. rewrite Hd, Ha in H. discriminate.
    + unfold RelayController.get_state in H.
      rewrite (bind_Return _ _ _ _ _ (validate_in _ _ Hi)) in H.
      erewrite bind_Raise in H
        by (apply zoom_run, getitem_beyond; [apply Hi | exact Hd]).
      discriminate.
  - rewrite (get_state_out _ _ Hi) in H. discriminate.
Qed.

(** X14.  [get_state] only reads: whatever its outcome the object is as
    before, with no call issued to the board; and a value it returns is
    that of an LED of the board at an index in [0,N). *)
Theorem get_state_reads_only i (self self' : CapRelay.obj) r :
  CapRelay.get_state i self = (self', r) ->
  self' = self /\
  forall b, r = Return b ->
    0 <= i < CapRelay.num_relays self /\
    exists d, cap_leds self !! Z.to_nat i = Some d /\ b = negb (gpiozero.is_lit d).
Proof.
  intros H. apply inherited_inv in H as (base & H & ->). split.
  - apply get_state_frame in H as ->. apply with_super_same.
  - intros b ->. apply get_state_Return_inv in H as (Hi & d & Hd & _ & ->). eauto.
Qed.

Lemma get_state_reads_only_witness :
  0 <= 1 < CapRelay.num_relays relay /\
  exists d, cap_leds relay !! Z.to_nat 1 = Some d /\ false = negb (gpiozero.is_lit d).
Proof.
  apply (proj2 (get_state_reads_only 1 relay relay (Return false) eq_refl) false eq_refl).
Defined.

Lemma switch_others v i self self' r :
  switch v i self = (self', r) ->
  forall j : nat, j <> Z.to_nat i -> leds_of self' !! j = leds_of self !! j.
Proof.
  destruct r as [u|e]; intros H j Hj.
  - apply switch_Return_inv in H as (_ & d & _ & _ & ->).
    rewrite written_leds. apply list_lookup_insert_ne. auto.
  - apply switch_Raise_inv in H as (-> & _). reflexivity.
Qed.

(** X15.  [close(i)] and [open(i)] touch relay [i] only: whatever the
    outcome, every other LED keeps its level and [current_state] and the
    vectors are as before. *)
Theorem close_open_touch_one i (self self' : CapRelay.obj) r :
  CapRelay.close i self = (self', r) \/ CapRelay.open i self = (self', r) ->
  (forall j : nat, j <> Z.to_nat i -> cap_leds self' !! j = cap_leds self !! j) /\
  CapRelay.current_state self' = CapRelay.current_state self /\
  same_setup self self'.
Proof.
  rewrite cap_switch_close, cap_switch_open.
  intros [H|H]; pose proof H as H'; apply inherited_inv in H as (base & H & ->).
  all: split; [intros j Hj; apply (switch_others _ _ _ _ _ H j Hj)|].
  all: split; [reflexivity|].
  all: eapply inherited_keeps_setup, H'; intros base'; apply switch_frame.
Qed.

Lemma close_open_touch_one_witness :
  exists self',
    CapRelay.close 1 relay = (self', Return tt) /\
    (forall j : nat, j <> Z.to_nat 1 -> cap_leds self' !! j = cap_leds relay !! j) /\
    CapRelay.current_state self' = CapRelay.current_state relay /\
    same_setup relay self'.
Proof.
  eexists. split; [vm_compute; reflexivity|].
  apply (close_open_touch_one 1 relay _ (Return tt)). left. reflexivity.
Defined.

(** ** open_all on a CapRelay *)

(** X16.  [open_all] never assigns [current_state], whatever its
    outcome; when it returns on an object whose [num_relays] is the size
    of its board, every relay reads open, also when [current_state]
    names a state that closes some. *)
Theorem open_all_keeps_current_state (self : CapRelay.obj) :
  (forall self' r, CapRelay.open_all self = (self', r) ->
     CapRelay.current_state self' = CapRelay.current_state self) /\
  (board_matches self ->
   forall self' u, CapRelay.open_all self = (self', Return u) ->
     forall i, 0 <= i < CapRelay.num_relays self ->
       CapRelay.get_state i self' = (self', Return false)).
Proof.
  split.
  - intros self' r H. apply inherited_inv in H as (base & _ & ->). reflexivity.
  - intros Hm self' u H i Hi.
    apply inherited_inv in H as (base & H & ->).
    rewrite open_all_sweep in H.
    apply sweep_Return_inv in H as (Hn & _ & _ & Hin & _).
    unfold board_matches, CapRelay.num_relays, cap_leds, len in Hm.
    unfold CapRelay.num_relays in Hi.
    destruct (Hin (Z.to_nat i) ltac:(lia)) as (d & _ & Ha & Hd).
    change false with (negb (gpiozero.is_lit (gpiozero.set_lit true d))).
    apply cap_get_state_ok.
    + unfold in_range. simpl. rewrite Hn. exact Hi.
    + exact Hd.
    + exact Ha.
Qed.

Lemma open_all_keeps_current_state_witness :
  exists opened,
    CapRelay.open_all relay = (opened, Return tt) /\
    CapRelay.current_state opened = "null" /\
    CapRelay.get_state 0 opened = (opened, Return false).
Proof.
  destruct (open_all_keeps_current_state relay) as [Hcur Hread].
  assert (H : exists o, CapRelay.open_all relay = (o, Return tt))
    by (eexists; vm_compute; reflexivity).
  destruct H as [o H]. exists o. split; [exact H|]. split.
  - apply (Hcur o (Return tt) H).
  - apply (Hread eq_refl o tt H 0). change (0 <= 0 < 4). lia.
Defined.

(** ** Every state of a CapRelay: what stays *)

Lemma apply_loop_current_state config : forall start self self' r,
  for_ (enumerate_from start config) CapRelay.apply_entry self = (self', r) ->
  CapRelay.current_state self' = CapRelay.current_state self.
Proof.
  induction config as [|v config IH]; intros start self self' r H;
    cbn [enumerate_from] in H.
  - injection H as <- _. reflexivity.
  - rewrite for_cons in H.
    destruct (CapRelay.apply_entry (start, v) self) as [mid [[]|e]] eqn:E.
    + apply apply_entry_Return_inv in E as (_ & _ & d & _ & _ & ->).
      apply IH in H. exact H.
    + injection H as <- _. apply apply_entry_Raise_inv in E as (_ & _ & E). exact E.
Qed.

Lemma set_state_current_state state_name self self' r :
  CapRelay.set_state state_name self = (self', r) ->
  CapRelay.current_state self' = CapRelay.current_state self \/
  (CapRelay.current_state self' = lower state_name /\ defined_state (lower state_name)).
Proof.
  destruct (CapRelay.select_config state_name self) as [self0 [V|e]] eqn:HV.
  - assert (self0 = self) as ->.
    { unfold CapRelay.select_config in HV.
      repeat match type of HV with
             | context [if ?b then _ else _] => destruct b
             end; injection HV as -> _; reflexivity. }
    rewrite (set_state_run _ _ _ HV).
    destruct (for_ _ _ _) as [mid [[]|e']] eqn:Hloop; intros [= <- _].
    + right. split; [reflexivity|]. eapply maps_to_defined, HV.
    + left. eapply apply_loop_current_state, Hloop.
  - unfold CapRelay.set_state. rewrite (bind_Raise _ _ _ _ _ HV).
    intros [= <- _]. left.
    unfold CapRelay.select_config in HV.
    repeat match type of HV with
           | context [if ?b then _ else _] => destruct b
           end; injection HV as -> _; reflexivity.
Qed.

Lemma after_current_state c self :
  CapRelay.current_state (after c self) = CapRelay.current_state self \/
  defined_state (CapRelay.current_state (after c self)).
Proof.
  assert (Hinh : forall A (m : M RelayController.obj A),
            CapRelay.current_state (fst (CapRelay.inherited m self))
            = CapRelay.current_state self).
  { intros A m. destruct (CapRelay.inherited m self) as [self' r] eqn:H.
    apply inherited_inv in H as (base & _ & ->). reflexivity. }
  destruct c as [i|i| | |i|state_name|]; unfold after.
  1-5: left; apply Hinh.
  - destruct (CapRelay.set_state state_name self) as [self' r] eqn:H.
    cbn [fst]. apply set_state_current_state in H as [H | [-> H]]; auto.
  - left. reflexivity.
Qed.

Lemma run_keeps_setup calls : forall self, same_setup self (run calls self).
Proof.
  induction calls as [|c calls IH]; intros self; [apply same_setup_refl|].
  eapply same_setup_trans; [apply after_keeps_setup | apply IH].
Qed.

Lemma run_current_state calls : forall self,
  defined_state (CapRelay.current_state self) ->
  defined_state (CapRelay.current_state (run calls self)).
Proof.
  induction calls as [|c calls IH]; intros self H; [exact H|].
  apply IH. destruct (after_current_state c self) as [-> | H']; assumption.
Qed.

(** X17.  What the constructor fixed stays fixed: through any sequence of
    calls of the public methods on a constructed CapRelay, returning or
    raising, [relay_pins], [num_relays], the two vectors, [null_state]
    and the size of the board are those of the construction. *)
Theorem setup_is_immutable hw pins chg dmp self calls :
  CapRelay.__init__ hw pins chg dmp = Return self ->
  CapRelay.relay_pins (run calls self) = pins /\
  CapRelay.num_relays (run calls self) = len pins /\
  CapRelay.chg_config (run calls self) = chg /\
  CapRelay.dmp_config (run calls self) = dmp /\
  CapRelay.null_state (run calls self) = replicate (length pins) 0 /\
  length (cap_leds (run calls self)) = length pins.
Proof.
  intros H. apply init_value in H as ->.
  destruct (run_keeps_setup calls (fresh pins chg dmp)) as [Hc Hd Hz Hn Hp Hl].
  rewrite Hc, Hd, Hz, Hn, Hp, Hl. repeat split.
  unfold cap_leds, fresh, leds_of. simpl. apply length_fmap.
Qed.

Lemma setup_is_immutable_witness :
  let after_calls :=
    run [call_set_state "charge"; call_close 7; call_get_state_info; call_open_all] relay in
  CapRelay.relay_pins after_calls = [22; 23; 24; 25] /\
  CapRelay.num_relays after_calls = len [22; 23; 24; 25] /\
  CapRelay.chg_config after_calls = [1; 1; 0; 0] /\
  CapRelay.dmp_config after_calls = [0; 0; 1; 1] /\
  CapRelay.null_state after_calls = replicate (length [22; 23; 24; 25]) 0 /\
  length (cap_leds after_calls) = length [22; 23; 24; 25].
Proof.
  apply (setup_is_immutable (fun _ => true) [22; 23; 24; 25] [1; 1; 0; 0] [0; 0; 1; 1]).
  reflexivity.
Defined.

(** X18.  [current_state] is always one of "charge", "dump" and "null":
    on a constructed CapRelay, through any sequence of calls of the
    public methods, returning or raising. *)
Theorem current_state_is_defined hw pins chg dmp self calls :
  CapRelay.__init__ hw pins chg dmp = Return self ->
  defined_state (CapRelay.current_state (run calls self)).
Proof.
  intros H. apply init_value in H as ->.
  apply run_current_state. right. right. reflexivity.
Qed.

Lemma current_state_is_defined_witness :
  defined_state
    (CapRelay.current_state
       (run [call_set_state "DUMP"; call_set_state "bogus"; call_close_all] relay)).
Proof.
  apply (current_state_is_defined (fun _ => true)
           [22; 23; 24; 25] [1; 1; 0; 0] [0; 0; 1; 1]).
  reflexivity.
Defined.

(** ** test.py *)

(** X19.  On hardware whose pins 22 to 25 answer, test.py runs to its
    last line without an exception; it ends with the four relays closed
    and [current_state] still "null", the state set before [close_all]. *)
Theorem test_py_runs hw :
  hw 22 = true -> hw 23 = true -> hw 24 = true -> hw 25 = true ->
  exists relay',
    test_py hw = Return relay' /\
    CapRelay.current_state relay' = "null" /\
    gpiozero.is_lit <$> cap_leds relay' = [false; false; false; false] /\
    forall i, 0 <= i < 4 -> CapRelay.get_state i relay' = (relay', Return true).
Proof.
  intros H22 H23 H24 H25. unfold test_py.
  destruct (init_ok hw [22; 23; 24; 25] [1; 1; 0; 0] [0; 0; 1; 1]) as (self & H & _);
    [discriminate | apply distinct_by_scan; reflexivity | reflexivity | reflexivity | |].
  { intros p Hp. repeat (apply elem_of_cons in Hp as [-> | Hp]; [assumption|]).
    apply elem_of_nil in Hp. contradiction. }
  rewrite H. apply init_value in H as ->.
  eexists. split; [vm_compute; reflexivity|].
  split; [reflexivity|]. split; [reflexivity|].
  intros i Hi.
  assert (Hcases : i = 0 \/ i = 1 \/ i = 2 \/ i = 3) by lia.
  destruct Hcases as [-> | [-> | [-> | ->]]]; reflexivity.
Qed.

Lemma test_py_runs_witness : exists relay', test_py (fun _ => true) = Return relay'.
Proof.
  destruct (test_py_runs (fun _ => true) eq_refl eq_refl eq_refl eq_refl)
    as (relay' & H & _).
  exists relay'. exact H.
Defined.

(** ** set_state after any history *)

Lemma written_wiring v k d self :
  leds_of self !! k = Some d ->
  wiring (leds_of (written v k d self)) = wiring (leds_of self).
Proof.
  intros Hd. rewrite written_leds. unfold wiring. rewrite list_fmap_insert.
  apply list_insert_id. rewrite list_lookup_fmap, Hd. reflexivity.
Qed.

Lemma switch_wiring v i self self' r :
  switch v i self = (self', r) -> wiring (leds_of self') = wiring (leds_of self).
Proof.
  destruct r as [u|e]; intros H.
  - apply switch_Return_inv in H as (_ & d & Hd & _ & ->). apply written_wiring, Hd.
  - apply switch_Raise_inv in H as (-> & _). reflexivity.
Qed.

Lemma sweep_wiring v n : forall s self self' r,
  sweep v s n self = (self', r) -> wiring (leds_of self') = wiring (leds_of self).
Proof.
  unfold sweep. induction n as [|n IH]; intros s self self' r H; cbn [seq] in H.
  - injection H as <- _. reflexivity.
  - rewrite for_cons, board_write_run in H.
    destruct (leds_of self !! s) as [d|] eqn:Hd; [|injection H as <- _; reflexivity].
    destruct (gpiozero.answers d); [|injection H as <- _; reflexivity].
    apply IH in H. rewrite H. apply written_wiring, Hd.
Qed.

Lemma apply_loop_wiring config : forall start self self' r,
  for_ (enumerate_from start config) CapRelay.apply_entry self = (self', r) ->
  wiring (cap_leds self') = wiring (cap_leds self).
Proof.
  induction config as [|v config IH]; intros start self self' r H;
    cbn [enumerate_from] in H.
  - injection H as <- _. reflexivity.
  - rewrite for_cons in H.
    destruct (CapRelay.apply_entry (start, v) self) as [mid [[]|e]] eqn:E.
    + apply apply_entry_Return_inv in E as (_ & _ & d & Hd & _ & ->).
      apply IH in H. rewrite H. apply written_wiring, Hd.
    + injection H as <- _. apply apply_entry_Raise_inv in E as (-> & _). reflexivity.
Qed.

Lemma set_state_wiring state_name self self' r :
  CapRelay.set_state state_name self = (self', r) ->
  wiring (cap_leds self') = wiring (cap_leds self).
Proof.
  destruct (CapRelay.select_config state_name self) as [self0 [V|e]] eqn:HV.
  - assert (self0 = self) as ->.
    { unfold CapRelay.select_config in HV.
      repeat match type of HV with
             | context [if ?b then _ else _] => destruct b
             end; injection HV as -> _; reflexivity. }
    rewrite (set_state_run _ _ _ HV).
    destruct (for_ _ _ _) as [mid [[]|e']] eqn:Hloop; intros [= <- _];
      rewrite ?with_current_state_leds; eapply apply_loop_wiring, Hloop.
  - unfold CapRelay.set_state. rewrite (bind_Raise _ _ _ _ _ HV).
    intros [= <- _].
    unfold CapRelay.select_config in HV.
    repeat match type of HV with
           | context [if ?b then _ else _] => destruct b
           end; injection HV as -> _; reflexivity.
Qed.

Lemma after_wiring c self : wiring (cap_leds (after c self)) = wiring (cap_leds self).
Proof.
  assert (Hinh : forall A (m : M RelayController.obj A),
            (forall base r, m (CapRelay.super self) = (base, r) ->
               wiring (leds_of base) = wiring (leds_of (CapRelay.super self))) ->
            wiring (cap_leds (fst (CapRelay.inherited m self))) = wiring (cap_leds self)).
  { intros A m Hm. destruct (CapRelay.inherited m self) as [self' r] eqn:H.
    apply inherited_inv in H as (base & H & ->). apply (Hm base r H). }
  destruct c as [i|i| | |i|state_name|]; unfold after.
  - apply Hinh. intros base r. apply switch_wiring.
  - apply Hinh. intros base r. apply switch_wiring.
  - apply Hinh. intros base r. rewrite close_all_sweep. apply sweep_wiring.
  - apply Hinh. intros base r. rewrite open_all_sweep. apply sweep_wiring.
  - apply Hinh. intros base r H. apply get_state_frame in H as ->. reflexivity.
  - destruct (CapRelay.set_state state_name self) as [self' r] eqn:H.
    eapply set_state_wiring, H.
  - reflexivity.
Qed.

Lemma run_wiring calls : forall self,
  wiring (cap_leds (run calls self)) = wiring (cap_leds self).
Proof.
  induction calls as [|c calls IH]; intros self; [reflexivity|].
  cbn [run fold_left]. fold (run calls (after c self)).
  rewrite IH. apply after_wiring.
Qed.

Lemma applied_leds_for pins : forall V leds,
  wiring leds = (fun p => (p, true)) <$> pins ->
  length V = length pins ->
  applied V leds = leds_for pins V.
Proof.
  unfold applied, leds_for, wiring.
  induction pins as [|p pins IH]; intros V leds Hw Hlen.
  - destruct leds; [|discriminate]. destruct V; [reflexivity | discriminate].
  - destruct leds as [|d leds]; [discriminate|]. destruct V as [|v V]; [discriminate|].
    rewrite !fmap_cons in Hw. injection Hw as Hp Ha Hw.
    cbn [zip_with length drop app]. rewrite (IH V leds Hw) by (simpl in Hlen; lia).
    f_equal. destruct d. simpl in *. subst. reflexivity.
Qed.

(** X20.  A [set_state] that returns leaves a board that depends on its
    vector only, not on what was called before: after any sequence of
    calls on a constructed CapRelay, returning or raising, the LEDs are
    those of the pins with the levels of the vector.  So the last
    [set_state] wins, and charge, null, charge ends as charge did. *)
Theorem set_state_forgets_history hw pins chg dmp self calls state_name V self' r :
  CapRelay.__init__ hw pins chg dmp = Return self ->
  maps_to (run calls self) state_name V ->
  CapRelay.set_state state_name (run calls self) = (self', Return r) ->
  cap_leds self' = leds_for pins V.
Proof.
  intros Hinit HV H.
  pose proof (run_well_formed _ _ _ _ _ calls Hinit) as Hwf.
  pose proof (maps_to_len _ _ _ Hwf HV) as Hlen.
  pose proof (run_keeps_setup calls self) as [_ _ _ Hn _ _].
  pose proof (run_wiring calls self) as Hw.
  apply init_value in Hinit as ->.
  rewrite (set_state_run _ _ _ HV) in H.
  destruct (for_ (enumerate V) CapRelay.apply_entry _) as [mid [[]|e]] eqn:Hloop;
    [|discriminate].
  injection H as <- _. rewrite with_current_state_leds.
  rewrite (apply_loop_leds _ _ _ _ Hloop).
  apply applied_leds_for.
  - rewrite Hw. unfold wiring, cap_leds, fresh, leds_of. simpl.
    rewrite <- list_fmap_compose. reflexivity.
  - rewrite Hn in Hlen. unfold len, CapRelay.num_relays, fresh in Hlen. simpl in Hlen.
    unfold len in Hlen. lia.
Qed.

Lemma set_state_forgets_history_witness :
  exists self',
    CapRelay.set_state "charge"
      (run [call_set_state "charge"; call_set_state "null"; call_close_all] relay)
    = (self', Return PyNone) /\
    cap_leds self' = leds_for [22; 23; 24; 25] [1; 1; 0; 0].
Proof.
  eexists. split; [vm_compute; reflexivity|].
  apply (set_state_forgets_history (fun _ => true) [22; 23; 24; 25] [1; 1; 0; 0]
           [0; 0; 1; 1] relay
           [call_set_state "charge"; call_set_state "null"; call_close_all]
           "charge" [1; 1; 0; 0] _ PyNone).
  - reflexivity.
  - reflexivity.
  - reflexivity.
Defined.
